(** * psycopg: prepared-statement cache and wait adaptors

    A shallow embedding of [psycopg/_preparing.py] (class [PrepareManager])
    and of [psycopg/waiting.py] (the [wait_*] functions), with the properties
    of the cache and of the wait loops stated and proved over it.

    Python [bytes] are modelled as [string], Python [int] as [Z] (the name
    counter, which starts at 0 and is only incremented or reset to 0, as
    [N]), the [OrderedDict] as an association list kept in recency order
    (first element = oldest), mutation as explicit state passing. *)

From Stdlib Require Import ZArith NArith List String Ascii Bool Lia.
From Stdlib Require Import DecimalString DecimalN QArith FinFun Sorted.
Import ListNotations.

Local Open Scope Z_scope.
Local Open Scope string_scope.
Local Open Scope list_scope.

(** ** Data model *)

Definition bytes := string.

(** [class Prepare(IntEnum)] *)
Inductive Prepare : Type := NO | YES | SHOULD.

Definition Prepare_eqb (a b : Prepare) : bool :=
  match a, b with
  | NO, NO | YES, YES | SHOULD, SHOULD => true
  | _, _ => false
  end.

(** [Key = Tuple[bytes, Tuple[int, ...]]] *)
Definition Key : Type := (bytes * list Z)%type.

(** [Value = Union[int, bytes]]: the number of times seen, or the name. *)
Inductive Value : Type :=
| VInt (n : Z)
| VBytes (b : bytes).

Definition Key_eq_dec (a b : Key) : {a = b} + {a <> b}.
Proof.
  decide equality.
  - apply (list_eq_dec Z.eq_dec).
  - apply string_dec.
Defined.

Definition Key_eqb (a b : Key) : bool := if Key_eq_dec a b then true else false.

(** The part of [PostgresQuery] the cache reads: [query.query] and
    [query.types]. *)
Record PostgresQuery : Type := mkQuery {
  query : bytes;
  types : list Z
}.

(** Modelled from the spec: [ExecStatus] is declared in [psycopg.pq], which is
    not among the sources; the cache only compares a status with [COMMAND_OK]
    and [TUPLES_OK], so every other member is collapsed into [OTHER_STATUS]
    (the spec's {CommandOk, TuplesOk, Other}). *)
Inductive ExecStatus : Type := COMMAND_OK | TUPLES_OK | OTHER_STATUS.

Definition ExecStatus_eqb (a b : ExecStatus) : bool :=
  match a, b with
  | COMMAND_OK, COMMAND_OK | TUPLES_OK, TUPLES_OK
  | OTHER_STATUS, OTHER_STATUS => true
  | _, _ => false
  end.

(** The part of [PGresult] the cache reads. [command_status] is
    [Optional[bytes]]. *)
Record PGresult : Type := mkResult {
  status : ExecStatus;
  command_status : option bytes
}.

(** ** [collections.OrderedDict], as used by the cache *)

Module OrderedDict.

Definition t : Type := list (Key * Value).

(** [d.get(k)] / [d[k]] *)
Fixpoint get (k : Key) (d : t) : option Value :=
  match d with
  | [] => None
  | (k', v) :: d' => if Key_eqb k k' then Some v else get k d'
  end.

(** [k in d] *)
Definition contains (k : Key) (d : t) : bool :=
  match get k d with Some _ => true | None => false end.

(** [d[k] = v] on a key that is present: the value changes, the position
    does not. *)
Fixpoint replace (k : Key) (v : Value) (d : t) : t :=
  match d with
  | [] => []
  | (k', v') :: d' =>
      if Key_eqb k k' then (k', v) :: d' else (k', v') :: replace k v d'
  end.

(** [d[k] = v]: a new key goes to the end. *)
Definition setitem (k : Key) (v : Value) (d : t) : t :=
  if contains k d then replace k v d else d ++ [(k, v)].

(** removal of the entry of [k] *)
Fixpoint remove (k : Key) (d : t) : t :=
  match d with
  | [] => []
  | (k', v') :: d' => if Key_eqb k k' then d' else (k', v') :: remove k d'
  end.

(** [d.move_to_end(k)]; [None] stands for Python's [KeyError]. *)
Definition move_to_end (k : Key) (d : t) : option t :=
  match get k d with
  | Some v => Some (remove k d ++ [(k, v)])
  | None => None
  end.

(** [d.popitem(last=False)]; [None] stands for Python's [KeyError]. *)
Definition popitem_first (d : t) : option ((Key * Value) * t) :=
  match d with
  | [] => None
  | kv :: d' => Some (kv, d')
  end.

(** [len(d)] *)
Definition len (d : t) : Z := Z.of_nat (List.length d).

(** [bool(d)] *)
Definition nonempty (d : t) : bool :=
  match d with [] => false | _ :: _ => true end.

Definition keys (d : t) : list Key := map fst d.

End OrderedDict.

(** ** [class PrepareManager] *)

(** [prepare_threshold] and [prepared_max] are class attributes that a
    connection may override; [_prepared] and [_prepared_idx] are set by
    [__init__]. *)
Record PrepareManager : Type := mkPM {
  prepare_threshold : option Z;
  prepared_max : Z;
  _prepared : OrderedDict.t;
  _prepared_idx : N
}.

(** [PrepareManager()] with the given configuration. *)
Definition init (threshold : option Z) (max : Z) : PrepareManager :=
  mkPM threshold max [] 0%N.

Definition set_prepared (pm : PrepareManager) (d : OrderedDict.t)
  : PrepareManager :=
  mkPM (prepare_threshold pm) (prepared_max pm) d (_prepared_idx pm).

Definition set_prepared_idx (pm : PrepareManager) (i : N) : PrepareManager :=
  mkPM (prepare_threshold pm) (prepared_max pm) (_prepared pm) i.

(** [PrepareManager.key] *)
Definition key (q : PostgresQuery) : Key := (query q, types q).

(** [f"{i}"] for a non-negative integer. *)
Definition decimal (i : N) : string := NilEmpty.string_of_uint (N.to_uint i).

(** [f"_pg3_{i}".encode()] *)
Definition pg3_name (i : N) : bytes := ("_pg3_" ++ decimal i)%string.

(** [PrepareManager.get]: the pair returned and the manager afterwards. *)
Definition get (pm : PrepareManager) (q : PostgresQuery)
  (prepare : option bool) : (Prepare * bytes) * PrepareManager :=
  match prepare, prepare_threshold pm with
  | Some false, _ | _, None => ((NO, ""), pm)
  | _, Some threshold =>
      match OrderedDict.get (key q) (_prepared pm) with
      | Some (VBytes name) => ((YES, name), pm)
      | other =>
          let value := match other with Some (VInt n) => n | _ => 0 end in
          if (value >=? threshold)%Z
             || match prepare with Some true => true | _ => false end
          then
            let name := pg3_name (_prepared_idx pm) in
            ((SHOULD, name), set_prepared_idx pm (_prepared_idx pm + 1)%N)
          else ((NO, ""), pm)
      end
  end.

(** The test of [should_discard] on one result. *)
Definition discarding (r : PGresult) : bool :=
  if negb (ExecStatus_eqb (status r) COMMAND_OK) then false
  else
    match command_status r with
    | None => false
    | Some cmdstat =>
        negb (cmdstat =? "")
        && (String.prefix "DROP " cmdstat || (cmdstat =? "ROLLBACK"))
    end.

(** [PrepareManager.should_discard] *)
Definition should_discard (pm : PrepareManager) (prep : Prepare)
  (results : list PGresult) : option bytes * PrepareManager :=
  if OrderedDict.nonempty (_prepared pm) || Prepare_eqb prep SHOULD then
    if existsb discarding results
    then (Some "DEALLOCATE ALL", set_prepared pm [])
    else (None, pm)
  else (None, pm).

(** [PrepareManager.setdefault] *)
Definition setdefault (pm : PrepareManager) (q : PostgresQuery)
  (prep : Prepare) (name : bytes) : option (Key * Value) * PrepareManager :=
  let k := key q in
  match OrderedDict.get k (_prepared pm) with
  | Some v =>
      let d1 :=
        match v with
        | VInt n =>
            if Prepare_eqb prep SHOULD
            then OrderedDict.setitem k (VBytes name) (_prepared pm)
            else OrderedDict.setitem k (VInt (n + 1)) (_prepared pm)
        | VBytes _ => _prepared pm
        end in
      match OrderedDict.move_to_end k d1 with
      | Some d2 => (None, set_prepared pm d2)
      | None => (None, set_prepared pm d1)
      end
  | None =>
      let value := if Prepare_eqb prep SHOULD then VBytes name else VInt 1 in
      (Some (k, value), pm)
  end.

(** [PrepareManager.maintain] *)
Definition maintain (pm : PrepareManager) (q : PostgresQuery)
  (results : list PGresult) (prep : Prepare) (name : bytes)
  : option bytes * PrepareManager :=
  match prepare_threshold pm with
  | None => (None, pm)
  | Some _ =>
      match should_discard pm prep results with
      | (Some cmd, pm1) => (Some cmd, pm1)
      | (None, pm1) =>
          match setdefault pm1 q prep name with
          | (None, pm2) => (None, pm2)
          | (Some (k, value), pm2) =>
              match results with
              | [r] =>
                  if negb (ExecStatus_eqb COMMAND_OK (status r))
                     && negb (ExecStatus_eqb (status r) TUPLES_OK)
                  then (None, pm2)
                  else
                    let d := OrderedDict.setitem k value (_prepared pm2) in
                    if (OrderedDict.len d <=? prepared_max pm2)%Z
                    then (None, set_prepared pm2 d)
                    else
                      match OrderedDict.popitem_first d with
                      | Some ((_, VBytes old_val), d') =>
                          (Some ("DEALLOCATE " ++ old_val)%string,
                           set_prepared pm2 d')
                      | Some ((_, VInt _), d') => (None, set_prepared pm2 d')
                      | None => (None, set_prepared pm2 d)
                      end
              | _ => (None, pm2)
              end
          end
      end
  end.

(** [PrepareManager.clear] *)
Definition clear (pm : PrepareManager) : option bytes * PrepareManager :=
  if (_prepared_idx pm =? 0)%N then (None, pm)
  else (Some "DEALLOCATE ALL",
        mkPM (prepare_threshold pm) (prepared_max pm) [] 0%N).

(** ** [psycopg/waiting.py] *)

(** [selectors.EVENT_READ], [selectors.EVENT_WRITE] and the [select.EPOLL*]
    flags are constants of the Python standard library (Linux values). *)
Definition EVENT_READ : Z := 1.
Definition EVENT_WRITE : Z := 2.
Definition EPOLLIN : Z := 1.
Definition EPOLLOUT : Z := 4.
Definition EPOLLONESHOT : Z := Z.shiftl 1 30.

(** [class Wait(IntEnum)]: the members are integers. *)
Module Wait.
Definition R : Z := EVENT_READ.
Definition W : Z := EVENT_WRITE.
Definition RW : Z := Z.lor EVENT_READ EVENT_WRITE.
End Wait.

(** [class Ready(IntEnum)] *)
Module Ready.
Definition R : Z := EVENT_READ.
Definition W : Z := EVENT_WRITE.
Definition RW : Z := Z.lor EVENT_READ EVENT_WRITE.
End Ready.

(** Python's truth value of an [int]. *)
Definition truthy (z : Z) : bool := negb (z =? 0)%Z.

(** [f"{z}"] for an integer. *)
Definition decimal_Z (z : Z) : string :=
  if (z <? 0)%Z then ("-" ++ decimal (Z.to_N (- z)))%string
  else decimal (Z.to_N z).

(** Modelled from the spec: [OperationalError] and [InternalError] are
    classes of [psycopg.errors], which is not among the sources; the spec
    has them as the timeout-class error and the internal error, and they are
    kept by name and message. The other three are Python's own: the failed
    [assert], the [ValueError] of [register] and the [KeyError] of the
    [poll_evmasks] lookup. *)
Inductive Error : Type :=
| AssertionError
| OperationalError (msg : string)
| InternalError (msg : string)
| ValueError
| KeyError.

(** One resumption of a generator: it yields, returns ([StopIteration]) or
    raises an exception of its own. *)
Inductive GenStep (Y RV E St : Type) : Type :=
| Yield (y : Y) (st : St)
| Return (rv : RV)
| Raise (e : E).
Arguments Yield {Y RV E St} y st.
Arguments Return {Y RV E St} rv.
Arguments Raise {Y RV E St} e.

(** A generator object, as a state machine: [gen_next] is [next(gen)] on the
    fresh generator, [gen_send st ready] is [gen.send(ready)] in state [st].
    [PQGen] yields [Wait] values, [PQGenConn] yields [(fileno, Wait)]. *)
Record Generator (Y RV E St : Type) : Type := mkGen {
  gen_next : GenStep Y RV E St;
  gen_send : St -> Z -> GenStep Y RV E St
}.
Arguments mkGen {Y RV E St} gen_next gen_send.
Arguments gen_next {Y RV E St} g.
Arguments gen_send {Y RV E St} g st ready.

Definition PQGen (RV E St : Type) : Type := Generator Z RV E St.
Definition PQGenConn (RV E St : Type) : Type := Generator (Z * Z) RV E St.

(** What a wait function has done once the environment's trace is used up:
    it returned, it raised, the generator's own exception went through it, or
    it is still waiting. *)
Inductive Outcome (RV E : Type) : Type :=
| Returned (rv : RV)
| Raised (e : Error)
| GenRaised (e : E)
| Waiting.
Arguments Returned {RV E} rv.
Arguments Raised {RV E} e.
Arguments GenRaised {RV E} e.
Arguments Waiting {RV E}.

(** The outcome, with the [(request, ready)] pairs sent to the generator, in
    order. *)
Definition Run (RV E : Type) : Type := (Outcome RV E * list (Z * Z))%type.

(** *** The environment

    Time is cut into windows; the trace gives, for each window, what the
    file descriptor did in it. A call that blocks without a timeout spans
    the windows in which nothing happened; a call with a timeout lasts one
    window. *)

Inductive Poll (A : Type) : Type :=
| Returns (a : A)
| KeepsWaiting.
Arguments Returns {A} a.
Arguments KeepsWaiting {A}.

(** A window of a selector or of epoll: the [(fd, events)] list reported. *)
Definition Window : Type := list (Z * Z).

(** [timeout or None] *)
Definition or_None (timeout : option Q) : option Q :=
  match timeout with
  | Some t => if Qeq_bool t 0 then None else Some t
  | None => None
  end.

(** [sel.select(timeout=timeout)] in one window: with no timeout the call
    blocks until a file object is ready, otherwise it returns what the window
    has, which may be nothing. *)
Definition sel_select (timeout : option Q) (w : Window) : Poll Window :=
  match w, timeout with
  | [], None => KeepsWaiting
  | _, _ => Returns w
  end.

(** [sel.register(fileno, events)] raises [ValueError] unless [events] is a
    non-empty combination of [EVENT_READ] and [EVENT_WRITE]. *)
Definition valid_events (events : Z) : bool :=
  truthy events
  && negb (truthy (Z.land events (Z.lnot (Z.lor EVENT_READ EVENT_WRITE)))).

(** [epoll.poll(timeout)] with the non-negative timeout [wait_epoll] passes:
    it returns what the window has. *)
Definition epoll_poll (timeout : Z) (w : Window) : Poll Window := Returns w.

(** [asyncio.wait(fs, timeout=timeout, return_when=FIRST_COMPLETED)] in one
    window. A future stands for its result ([Ready.R] for the reader's,
    [Ready.W] for the writer's); [ev] has the bits of the callbacks the loop
    ran in the window. With no future done, the call goes on without a
    timeout and returns the empty set with one. *)
Definition asyncio_wait (fs : list Z) (timeout : option Q) (ev : Z)
  : Poll (list Z) :=
  match filter (fun f => truthy (Z.land f ev)) fs, timeout with
  | [], None => KeepsWaiting
  | done, _ => Returns done
  end.

(** [poll_evmasks] *)
Definition poll_evmasks (s : Z) : option Z :=
  if (s =? Wait.R)%Z then Some (Z.lor EPOLLONESHOT EPOLLIN)
  else if (s =? Wait.W)%Z then Some (Z.lor EPOLLONESHOT EPOLLOUT)
  else if (s =? Wait.RW)%Z
       then Some (Z.lor (Z.lor EPOLLONESHOT EPOLLIN) EPOLLOUT)
  else None.

(** The futures the asynchronous functions create for the request [s]. *)
Definition futures (s : Z) : list Z :=
  (if truthy (Z.land s Wait.R) then [Ready.R] else [])
  ++ (if truthy (Z.land s Wait.W) then [Ready.W] else []).

(** [ready = 0; while done: ready |= done.pop().result()] *)
Definition merge_done (done : list Z) : Z := fold_left Z.lor done 0.

(** The [ready] value [wait_epoll] computes from the epoll event mask. *)
Definition epoll_ready (ev : Z) : Z :=
  let ready := 0 in
  let ready :=
    if truthy (Z.land ev (Z.lnot EPOLLOUT)) then Z.lor ready Ready.R
    else ready in
  if truthy (Z.land ev (Z.lnot EPOLLIN)) then Z.lor ready Ready.W else ready.

Section Waiting.

Variables RV E St : Type.

(** The [while 1] loop of [wait_selector], entered with the request [s]
    and the generator suspended in [st]. *)
Fixpoint selector_loop (gen : PQGen RV E St) (timeout : option Q)
  (st : St) (s : Z) (tr : list Window) (sent : list (Z * Z)) {struct tr}
  : Run RV E :=
  if negb (valid_events s) then (Raised ValueError, sent)
  else
    (fix poll (tr : list Window) : Run RV E :=
       match tr with
       | [] => (Waiting, sent)
       | w :: tr' =>
           match sel_select timeout w with
           | KeepsWaiting => poll tr'
           | Returns [] => poll tr'
           | Returns ((_, ready) :: _) =>
               if negb (truthy (Z.land s ready))
               then (Raised AssertionError, sent)
               else
                 let sent' := sent ++ [(s, ready)] in
                 match gen_send gen st ready with
                 | Yield s' st' =>
                     selector_loop gen timeout st' s' tr' sent'
                 | Return rv => (Returned rv, sent')
                 | Raise e => (GenRaised e, sent')
                 end
           end
       end) tr.

(** [wait_selector]; [fileno] only goes to [register] and [unregister]. *)
Definition wait_selector (gen : PQGen RV E St) (fileno : Z)
  (timeout : option Q) (tr : list Window) : Run RV E :=
  match gen_next gen with
  | Yield s st => selector_loop gen timeout st s tr []
  | Return rv => (Returned rv, [])
  | Raise e => (GenRaised e, [])
  end.

(** The [while 1] loop of [wait_conn]. *)
Fixpoint conn_loop (gen : PQGenConn RV E St) (timeout : option Q)
  (st : St) (fileno s : Z) (tr : list Window) (sent : list (Z * Z))
  {struct tr} : Run RV E :=
  if negb (valid_events s) then (Raised ValueError, sent)
  else
    (fix poll (tr : list Window) : Run RV E :=
       match tr with
       | [] => (Waiting, sent)
       | w :: tr' =>
           match sel_select timeout w with
           | KeepsWaiting => poll tr'
           | Returns [] =>
               (Raised (OperationalError "timeout expired"), sent)
           | Returns ((_, ready) :: _) =>
               let sent' := sent ++ [(s, ready)] in
               match gen_send gen st ready with
               | Yield (fileno', s') st' =>
                   conn_loop gen timeout st' fileno' s' tr' sent'
               | Return rv => (Returned rv, sent')
               | Raise e => (GenRaised e, sent')
               end
           end
       end) tr.

(** [wait_conn] *)
Definition wait_conn (gen : PQGenConn RV E St) (timeout : option Q)
  (tr : list Window) : Run RV E :=
  let timeout := or_None timeout in
  match gen_next gen with
  | Yield (fileno, s) st => conn_loop gen timeout st fileno s tr []
  | Return rv => (Returned rv, [])
  | Raise e => (GenRaised e, [])
  end.

(** The [while 1] loop of [wait_async]; a window is the mask of the
    callbacks the event loop runs in it. *)
Fixpoint async_loop (gen : PQGen RV E St) (st : St) (s : Z)
  (tr : list Z) (sent : list (Z * Z)) {struct tr} : Run RV E :=
  let fs := futures s in
  match fs with
  | [] =>
      (Raised (InternalError ("bad poll status: " ++ decimal_Z s)%string),
       sent)
  | _ :: _ =>
      (fix wait (tr : list Z) : Run RV E :=
         match tr with
         | [] => (Waiting, sent)
         | ev :: tr' =>
             match asyncio_wait fs None ev with
             | KeepsWaiting => wait tr'
             | Returns done =>
                 let ready := merge_done done in
                 let sent' := sent ++ [(s, ready)] in
                 match gen_send gen st ready with
                 | Yield s' st' => async_loop gen st' s' tr' sent'
                 | Return rv => (Returned rv, sent')
                 | Raise e => (GenRaised e, sent')
                 end
             end
         end) tr
  end.

(** [wait_async] *)
Definition wait_async (gen : PQGen RV E St) (fileno : Z) (tr : list Z)
  : Run RV E :=
  match gen_next gen with
  | Yield s st => async_loop gen st s tr []
  | Return rv => (Returned rv, [])
  | Raise e => (GenRaised e, [])
  end.

(** The [while 1] loop of [wait_conn_async]. *)
Fixpoint conn_async_loop (gen : PQGenConn RV E St) (timeout : option Q)
  (st : St) (fileno s : Z) (tr : list Z) (sent : list (Z * Z))
  {struct tr} : Run RV E :=
  let fs := futures s in
  match fs with
  | [] =>
      (Raised (InternalError ("bad poll status: " ++ decimal_Z s)%string),
       sent)
  | _ :: _ =>
      (fix wait (tr : list Z) : Run RV E :=
         match tr with
         | [] => (Waiting, sent)
         | ev :: tr' =>
             match asyncio_wait fs timeout ev with
             | KeepsWaiting => wait tr'
             | Returns [] =>
                 (Raised (OperationalError "timeout expired"), sent)
             | Returns done =>
                 let ready := merge_done done in
                 let sent' := sent ++ [(s, ready)] in
                 match gen_send gen st ready with
                 | Yield (fileno', s') st' =>
                     conn_async_loop gen timeout st' fileno' s' tr' sent'
                 | Return rv => (Returned rv, sent')
                 | Raise e => (GenRaised e, sent')
                 end
             end
         end) tr
  end.

(** [wait_conn_async] *)
Definition wait_conn_async (gen : PQGenConn RV E St) (timeout : option Q)
  (tr : list Z) : Run RV E :=
  let timeout := or_None timeout in
  match gen_next gen with
  | Yield (fileno, s) st => conn_async_loop gen timeout st fileno s tr []
  | Return rv => (Returned rv, [])
  | Raise e => (GenRaised e, [])
  end.

(** The [while 1] loop of [wait_epoll], entered after [register] or
    [modify]. *)
Fixpoint epoll_loop (gen : PQGen RV E St) (timeout : Z) (st : St) (s : Z)
  (tr : list Window) (sent : list (Z * Z)) {struct tr} : Run RV E :=
  match tr with
  | [] => (Waiting, sent)
  | w :: tr' =>
      match epoll_poll timeout w with
      | KeepsWaiting => epoll_loop gen timeout st s tr' sent
      | Returns [] => epoll_loop gen timeout st s tr' sent
      | Returns ((_, ev) :: _) =>
          let ready := epoll_ready ev in
          if negb (truthy (Z.land s ready))
          then (Raised AssertionError, sent)
          else
            let sent' := sent ++ [(s, ready)] in
            match gen_send gen st ready with
            | Yield s' st' =>
                match poll_evmasks s' with
                | Some evmask => epoll_loop gen timeout st' s' tr' sent'
                | None => (Raised KeyError, sent')
                end
            | Return rv => (Returned rv, sent')
            | Raise e => (GenRaised e, sent')
            end
      end
  end.

(** The timeout [wait_epoll] passes to [epoll.poll]. *)
Definition epoll_timeout (timeout : option Q) : Z :=
  match timeout with
  | None => 0
  | Some t =>
      if Qle_bool 0 t
      then Z.quot (Qnum (t * 1000)) (Z.pos (Qden (t * 1000)))
      else 0
  end.

(** [wait_epoll] *)
Definition wait_epoll (gen : PQGen RV E St) (fileno : Z)
  (timeout : option Q) (tr : list Window) : Run RV E :=
  let timeout := epoll_timeout timeout in
  match gen_next gen with
  | Yield s st =>
      match poll_evmasks s with
      | Some evmask => epoll_loop gen timeout st s tr []
      | None => (Raised KeyError, [])
      end
  | Return rv => (Returned rv, [])
  | Raise e => (GenRaised e, [])
  end.

End Waiting.

Arguments wait_selector {RV E St} gen fileno timeout tr.
Arguments wait_conn {RV E St} gen timeout tr.
Arguments wait_async {RV E St} gen fileno tr.
Arguments wait_conn_async {RV E St} gen timeout tr.
Arguments wait_epoll {RV E St} gen fileno timeout tr.
Arguments selector_loop {RV E St} gen timeout st s tr sent.
Arguments conn_loop {RV E St} gen timeout st fileno s tr sent.
Arguments async_loop {RV E St} gen st s tr sent.
Arguments conn_async_loop {RV E St} gen timeout st fileno s tr sent.
Arguments epoll_loop {RV E St} gen timeout st s tr sent.

(** ** Sequences of calls on a manager *)

(** The public operations of [PrepareManager]. *)
Inductive Op : Type :=
| OpGet (q : PostgresQuery) (prepare : option bool)
| OpMaintain (q : PostgresQuery) (results : list PGresult) (prep : Prepare)
    (name : bytes)
| OpClear.

Definition step (pm : PrepareManager) (op : Op) : PrepareManager :=
  match op with
  | OpGet q prepare => snd (get pm q prepare)
  | OpMaintain q results prep name => snd (maintain pm q results prep name)
  | OpClear => snd (clear pm)
  end.

Definition run (pm : PrepareManager) (ops : list Op) : PrepareManager :=
  fold_left step ops pm.

(** The names handed out by the [get] calls of a sequence that answer
    [Prepare.SHOULD], in order. *)
Fixpoint names_issued (pm : PrepareManager) (ops : list Op) : list bytes :=
  match ops with
  | [] => []
  | op :: ops' =>
      match op with
      | OpGet q prepare =>
          match fst (get pm q prepare) with
          | (SHOULD, name) => [name]
          | _ => []
          end
      | _ => []
      end ++ names_issued (step pm op) ops'
  end.

(** The gate of [maintain] for a key that is not in the cache: one result,
    of status [COMMAND_OK] or [TUPLES_OK]. *)
Definition eligible (results : list PGresult) : bool :=
  match results with
  | [r] =>
      ExecStatus_eqb (status r) COMMAND_OK
      || ExecStatus_eqb (status r) TUPLES_OK
  | _ => false
  end.

(** [maintain(query, results, Prepare.NO, b"")], once per element. *)
Fixpoint record_all (pm : PrepareManager) (q : PostgresQuery)
  (rss : list (list PGresult)) : PrepareManager :=
  match rss with
  | [] => pm
  | results :: rss' =>
      record_all (snd (maintain pm q results NO "")) q rss'
  end.

(** The count [get] reads for a query: [self._prepared.get(key, 0)] when it
    is not a name. *)
Definition seen_count (pm : PrepareManager) (q : PostgresQuery) : Z :=
  match OrderedDict.get (key q) (_prepared pm) with
  | Some (VInt n) => n
  | _ => 0
  end.

(** The key a call touches: [maintain] touches the key of its query when it
    gets past [should_discard] and either finds the key ([move_to_end]) or
    inserts it. *)
Definition touches (pm : PrepareManager) (op : Op) : option Key :=
  match op with
  | OpMaintain q results prep name =>
      match prepare_threshold pm, fst (should_discard pm prep results) with
      | Some _, None =>
          if OrderedDict.contains (key q) (_prepared pm) || eligible results
          then Some (key q) else None
      | _, _ => None
      end
  | _ => None
  end.

(** The touches of a sequence of calls, the latest first, in front of
    [log]. *)
Fixpoint run_touches (pm : PrepareManager) (ops : list Op)
  (log : list (option Key)) : list (option Key) :=
  match ops with
  | [] => log
  | op :: ops' => run_touches (step pm op) ops' (touches pm op :: log)
  end.

(** How many calls ago [k] was last touched. *)
Fixpoint age (k : Key) (log : list (option Key)) : nat :=
  match log with
  | [] => 0
  | Some k' :: log' => if Key_eqb k k' then 0%nat else S (age k log')
  | None :: log' => S (age k log')
  end.

(** ** The spec's wording of the invalidation match *)

(** ASCII whitespace, as [bytes.split()] has it. *)
Definition is_space (c : ascii) : bool :=
  match c with
  | " "%char | "009"%char | "010"%char | "011"%char | "012"%char
  | "013"%char => true
  | _ => false
  end.

Fixpoint skip_spaces (s : string) : string :=
  match s with
  | String c s' => if is_space c then skip_spaces s' else s
  | EmptyString => EmptyString
  end.

Fixpoint take_token (s : string) : string :=
  match s with
  | String c s' => if is_space c then EmptyString else String c (take_token s')
  | EmptyString => EmptyString
  end.

(** The leading whitespace-delimited token of a command tag. *)
Definition leading_token (tag : string) : string :=
  take_token (skip_spaces tag).

(** The match as the spec words it: the leading token is [DROP], or the
    whole tag is [ROLLBACK]. *)
Definition spec_invalidating (tag : string) : bool :=
  (leading_token tag =? "DROP")%string || (tag =? "ROLLBACK")%string.

(** ** Sample data *)

Definition query_F : PostgresQuery := mkQuery "SELECT $1" [23].
Definition query_G : PostgresQuery := mkQuery "SELECT $1, $2" [23; 25].
Definition query_rollback : PostgresQuery := mkQuery "ROLLBACK" [].

Definition select_ok : list PGresult := [mkResult TUPLES_OK (Some "SELECT 1")].
Definition rollback_ok : list PGresult :=
  [mkResult COMMAND_OK (Some "ROLLBACK")].
Definition drop_table_ok : list PGresult :=
  [mkResult COMMAND_OK (Some "DROP TABLE")].
Definition bare_drop_ok : list PGresult := [mkResult COMMAND_OK (Some "DROP")].

(** A generator that asks to read and returns 7 when resumed. *)
Definition read_once : PQGen nat unit unit :=
  mkGen (Yield Wait.R tt) (fun _ _ => Return 7%nat).

(** The same for a connection, on descriptor 5. *)
Definition conn_read_once : PQGenConn nat unit unit :=
  mkGen (Yield (5, Wait.R) tt) (fun _ _ => Return 7%nat).

(** The pairs sent to a generator all answer the request by one of its
    bits. *)
Definition shares_bit (p : Z * Z) : Prop := Z.land (fst p) (snd p) <> 0.

(** What [should_discard] matches, stated on the bytes: the tag begins with
    [DROP] and a space, or it is [ROLLBACK]. *)
Definition invalidating_tag (tag : bytes) : Prop :=
  (exists rest, tag = ("DROP " ++ rest)%string) \/ tag = "ROLLBACK".

Definition invalidating (r : PGresult) : Prop :=
  status r = COMMAND_OK
  /\ exists tag, command_status r = Some tag /\ invalidating_tag tag.

(** The cache holds [k] once, as its youngest entry, seen [n] times. *)
Definition counted (pm : PrepareManager) (k : Key) (n : Z) : Prop :=
  exists d, _prepared pm = d ++ [(k, VInt n)] /\ OrderedDict.get k d = None.

(** A result list that passes the gate of [maintain] and invalidates
    nothing. *)
Definition plain_results (results : list PGresult) : Prop :=
  eligible results = true /\ forall r, In r results -> ~ invalidating r.

(** The keys [ks], oldest first, are in the order of their last touch in
    [log]: each was touched, and longer ago than those after it. *)
Definition lru_ordered (ks : list Key) (log : list (option Key)) : Prop :=
  StronglySorted (fun a b => (age b log < age a log)%nat) ks
  /\ Forall (fun k => In (Some k) log) ks.

(** ** What a call leaves and answers *)

(** The value [setdefault] leaves for a key it finds with the value [v]:
    a count becomes the name on [Prepare.SHOULD] and is incremented
    otherwise; a name stays. *)
Definition bump (v : Value) (prep : Prepare) (name : bytes) : Value :=
  match v with
  | VInt n => if Prepare_eqb prep SHOULD then VBytes name else VInt (n + 1)
  | VBytes b => VBytes b
  end.

(** The value [setdefault] proposes for a key it does not find. *)
Definition new_value (prep : Prepare) (name : bytes) : Value :=
  if Prepare_eqb prep SHOULD then VBytes name else VInt 1.

(** The command a call answers to its caller. *)
Definition command (pm : PrepareManager) (op : Op) : option bytes :=
  match op with
  | OpGet _ _ => None
  | OpMaintain q results prep name => fst (maintain pm q results prep name)
  | OpClear => fst (clear pm)
  end.

(** ** The default wait function *)

(** [wait], as the end of [waiting.py] sets it: [wait_epoll] when the default
    selector is the epoll one, [wait_selector] otherwise. *)
Definition wait {RV E St : Type} (default_is_epoll : bool)
  : PQGen RV E St -> Z -> option Q -> list Window -> Run RV E :=
  if default_is_epoll then wait_epoll else wait_selector.

(** The members of [Wait]. *)
Definition is_Wait (s : Z) : Prop := s = Wait.R \/ s = Wait.W \/ s = Wait.RW.



(** The readiness sent has no bit outside the request. *)
Definition within_request (p : Z * Z) : Prop :=
  Z.land (snd p) (fst p) = snd p.

(** ** Lemmas on the ordered dictionary *)

Lemma Key_eqb_refl (k : Key) : Key_eqb k k = true.
Proof. unfold Key_eqb. destruct (Key_eq_dec k k); congruence. Qed.

Lemma Key_eqb_eq (a b : Key) : Key_eqb a b = true <-> a = b.
Proof. unfold Key_eqb. destruct (Key_eq_dec a b); split; congruence. Qed.

Lemma Key_eqb_neq (a b : Key) : Key_eqb a b = false <-> a <> b.
Proof. unfold Key_eqb. destruct (Key_eq_dec a b); split; congruence. Qed.

Module OrderedDictFacts.
Import OrderedDict.

Lemma replace_length k v d : List.length (replace k v d) = List.length d.
Proof.
  induction d as [|[k' v'] d IH]; simpl; [reflexivity|].
  destruct (Key_eqb k k'); simpl; congruence.
Qed.

Lemma get_None_keys k d : get k d = None <-> ~ In k (keys d).
Proof.
  unfold keys. induction d as [|[k' v'] d IH]; simpl.
  - tauto.
  - destruct (Key_eqb k k') eqn:Hk.
    + apply Key_eqb_eq in Hk. subst. split; [discriminate | tauto].
    + apply Key_eqb_neq in Hk. rewrite IH. intuition congruence.
Qed.

Lemma setitem_absent k v d : get k d = None -> setitem k v d = d ++ [(k, v)].
Proof. intros H. unfold setitem, contains. now rewrite H. Qed.

Lemma setitem_present k v d w :
  get k d = Some w -> setitem k v d = replace k v d.
Proof. intros H. unfold setitem, contains. now rewrite H. Qed.

Lemma setitem_length k v d :
  (List.length (setitem k v d) <= S (List.length d))%nat.
Proof.
  unfold setitem. destruct (contains k d).
  - rewrite replace_length. lia.
  - rewrite length_app. simpl. lia.
Qed.

Lemma get_replace k v d w : get k d = Some w -> get k (replace k v d) = Some v.
Proof.
  induction d as [|[k' v'] d IH]; simpl; [discriminate|].
  destruct (Key_eqb k k') eqn:Hk; simpl; rewrite Hk; auto.
Qed.

Lemma remove_length k d w :
  get k d = Some w -> S (List.length (remove k d)) = List.length d.
Proof.
  induction d as [|[k' v'] d IH]; simpl; [discriminate|].
  destruct (Key_eqb k k'); simpl; auto.
Qed.

Lemma move_to_end_length k d d' :
  move_to_end k d = Some d' -> List.length d' = List.length d.
Proof.
  unfold move_to_end. destruct (get k d) eqn:Hg; [|discriminate].
  intros [= <-]. rewrite length_app. simpl.
  apply remove_length in Hg. lia.
Qed.

Lemma get_app_absent k d v :
  get k d = None -> get k (d ++ [(k, v)]) = Some v.
Proof.
  induction d as [|[k' v'] d IH]; simpl.
  - now rewrite Key_eqb_refl.
  - destruct (Key_eqb k k'); [discriminate | auto].
Qed.

Lemma remove_app_absent k d v :
  get k d = None -> remove k (d ++ [(k, v)]) = d.
Proof.
  induction d as [|[k' v'] d IH]; simpl.
  - now rewrite Key_eqb_refl.
  - destruct (Key_eqb k k'); [discriminate|]. intros H. now rewrite IH.
Qed.

End OrderedDictFacts.

(** ** Lemmas on the manager *)

Lemma should_discard_None pm prep results pm1 :
  should_discard pm prep results = (None, pm1) -> pm1 = pm.
Proof.
  unfold should_discard.
  destruct (_ || _); [destruct (existsb _ _)|]; congruence.
Qed.

Lemma should_discard_Some pm prep results cmd pm1 :
  should_discard pm prep results = (Some cmd, pm1) ->
  cmd = "DEALLOCATE ALL" /\ pm1 = set_prepared pm [].
Proof.
  unfold should_discard.
  destruct (_ || _); [destruct (existsb _ _)|]; intros [= <- <-]; auto.
Qed.

Lemma setdefault_config pm q prep name :
  prepare_threshold (snd (setdefault pm q prep name)) = prepare_threshold pm
  /\ prepared_max (snd (setdefault pm q prep name)) = prepared_max pm
  /\ _prepared_idx (snd (setdefault pm q prep name)) = _prepared_idx pm.
Proof.
  unfold setdefault.
  destruct (OrderedDict.get _ _); [|simpl; auto].
  destruct (OrderedDict.move_to_end _ _); simpl; auto.
Qed.

Lemma setdefault_Some pm q prep name kv pm2 :
  setdefault pm q prep name = (Some kv, pm2) ->
  pm2 = pm
  /\ OrderedDict.get (key q) (_prepared pm) = None
  /\ kv = (key q, if Prepare_eqb prep SHOULD then VBytes name else VInt 1).
Proof.
  unfold setdefault.
  destruct (OrderedDict.get _ _).
  - destruct (OrderedDict.move_to_end _ _); discriminate.
  - intros [= <- <-]. auto.
Qed.

Lemma setdefault_length pm q prep name :
  List.length (_prepared (snd (setdefault pm q prep name)))
  = List.length (_prepared pm).
Proof.
  unfold setdefault.
  destruct (OrderedDict.get (key q) (_prepared pm)) as [v|] eqn:Hg;
    [|reflexivity].
  assert (Hlen : forall w,
             List.length (OrderedDict.setitem (key q) w (_prepared pm))
             = List.length (_prepared pm)).
  { intros w. rewrite (OrderedDictFacts.setitem_present _ _ _ _ Hg).
    apply OrderedDictFacts.replace_length. }
  destruct v as [n|b].
  - destruct (Prepare_eqb prep SHOULD).
    + destruct (OrderedDict.move_to_end _ _) eqn:Hm; simpl.
      * apply OrderedDictFacts.move_to_end_length in Hm. now rewrite Hm.
      * apply Hlen.
    + destruct (OrderedDict.move_to_end _ _) eqn:Hm; simpl.
      * apply OrderedDictFacts.move_to_end_length in Hm. now rewrite Hm.
      * apply Hlen.
  - destruct (OrderedDict.move_to_end _ _) eqn:Hm; simpl.
    + now apply OrderedDictFacts.move_to_end_length in Hm.
    + reflexivity.
Qed.

Lemma maintain_config pm q results prep name :
  prepare_threshold (snd (maintain pm q results prep name))
  = prepare_threshold pm
  /\ prepared_max (snd (maintain pm q results prep name)) = prepared_max pm
  /\ _prepared_idx (snd (maintain pm q results prep name)) = _prepared_idx pm.
Proof.
  unfold maintain.
  destruct (prepare_threshold pm) eqn:Ht; [|simpl; auto].
  destruct (should_discard pm prep results) as [[cmd|] pm1] eqn:Hd.
  - apply should_discard_Some in Hd as [_ ->]. simpl. auto.
  - apply should_discard_None in Hd as ->.
    destruct (setdefault pm q prep name) as [[[k v]|] pm2] eqn:Hs.
    + apply setdefault_Some in Hs as (-> & _ & _).
      destruct results as [|r [|r' rs]]; simpl; auto.
      destruct (_ && _); simpl; auto.
      destruct (_ <=? _)%Z; simpl; auto.
      destruct (OrderedDict.popitem_first _) as [[[k' [n|b]] d']|]; simpl; auto.
    + pose proof (setdefault_config pm q prep name) as H.
      rewrite Hs in H. simpl in *. rewrite Ht in H. exact H.
Qed.

Lemma step_prepared_max pm op : prepared_max (step pm op) = prepared_max pm.
Proof.
  destruct op as [q prepare|q results prep name|]; simpl.
  - unfold get. destruct prepare as [[|]|], (prepare_threshold pm); simpl;
      try reflexivity;
      destruct (OrderedDict.get _ _) as [[n|b]|]; simpl; try reflexivity;
      match goal with |- context [if ?c then _ else _] => destruct c end;
      reflexivity.
  - apply maintain_config.
  - unfold clear. destruct (_ =? _)%N; reflexivity.
Qed.

Lemma get_prepared pm q prepare :
  _prepared (snd (get pm q prepare)) = _prepared pm.
Proof.
  unfold get. destruct prepare as [[|]|], (prepare_threshold pm); simpl;
    try reflexivity;
    destruct (OrderedDict.get _ _) as [[n|b]|]; simpl; try reflexivity;
    match goal with |- context [if ?c then _ else _] => destruct c end;
    reflexivity.
Qed.

Lemma maintain_length pm q results prep name :
  0 <= prepared_max pm ->
  OrderedDict.len (_prepared pm) <= prepared_max pm ->
  OrderedDict.len (_prepared (snd (maintain pm q results prep name)))
  <= prepared_max pm.
Proof.
  intros Hmax Hlen. unfold maintain.
  destruct (prepare_threshold pm) eqn:Ht; [|exact Hlen].
  destruct (should_discard pm prep results) as [[cmd|] pm1] eqn:Hd.
  - apply should_discard_Some in Hd as [_ ->]. simpl. exact Hmax.
  - apply should_discard_None in Hd as ->.
    destruct (setdefault pm q prep name) as [[[k v]|] pm2] eqn:Hs.
    + apply setdefault_Some in Hs as (-> & _ & _).
      destruct results as [|r [|r' rs]]; simpl; auto.
      destruct (_ && _); simpl; auto.
      destruct (_ <=? _)%Z eqn:Hle; simpl.
      * now apply Z.leb_le in Hle.
      * pose proof (OrderedDictFacts.setitem_length k v (_prepared pm)) as Hs.
        unfold OrderedDict.len in *.
        destruct (OrderedDict.setitem k v (_prepared pm)) as [|[k' v'] d'];
          simpl in *.
        -- exact Hmax.
        -- clear Hle. apply le_S_n in Hs. apply Nat2Z.inj_le in Hs.
           destruct v'; simpl; eapply Z.le_trans; eauto.
    + pose proof (setdefault_length pm q prep name) as H.
      rewrite Hs in H. simpl in *. unfold OrderedDict.len. now rewrite H.
Qed.

Lemma step_length pm op :
  0 <= prepared_max pm ->
  OrderedDict.len (_prepared pm) <= prepared_max pm ->
  OrderedDict.len (_prepared (step pm op)) <= prepared_max pm.
Proof.
  intros Hmax Hlen. destruct op as [q prepare|q results prep name|]; simpl.
  - now rewrite get_prepared.
  - now apply maintain_length.
  - unfold clear. destruct (_ =? _)%N; simpl; auto.
Qed.

Lemma run_length ops : forall pm,
  0 <= prepared_max pm ->
  OrderedDict.len (_prepared pm) <= prepared_max pm ->
  OrderedDict.len (_prepared (run pm ops)) <= prepared_max pm.
Proof.
  induction ops as [|op ops IH]; intros pm Hmax Hlen; simpl; [exact Hlen|].
  rewrite <- (step_prepared_max pm op). apply IH.
  - now rewrite step_prepared_max.
  - rewrite step_prepared_max. now apply step_length.
Qed.

(** ** The claims on the cache *)

(** C3. Starting from the empty cache with a fixed, non-negative
    [prepared_max], after every call of a sequence of [get], [maintain] and
    [clear] calls the cache holds at most [prepared_max] entries. *)
Theorem cache_size_bounded (threshold : option Z) (max : Z) (ops : list Op)
  (n : nat) :
  0 <= max ->
  OrderedDict.len (_prepared (run (init threshold max) (firstn n ops))) <= max.
Proof.
  intros Hmax.
  apply (run_length (firstn n ops) (init threshold max));
    unfold OrderedDict.len; simpl; lia.
Qed.

Lemma cache_size_bounded_witness :
  0 <= 1
  /\ OrderedDict.len
       (_prepared
          (run (init (Some 3) 1)
             (firstn 2 [OpMaintain query_F select_ok NO "";
                        OpMaintain query_G select_ok NO ""]))) <= 1.
Proof.
  split; [lia|].
  apply (cache_size_bounded (Some 3) 1
           [OpMaintain query_F select_ok NO "";
            OpMaintain query_G select_ok NO ""] 2).
  lia.
Defined.

Lemma prefix_DROP (tag : string) :
  String.prefix "DROP " tag = true
  <-> exists rest, tag = ("DROP " ++ rest)%string.
Proof.
  split.
  - intros H.
    do 5 (destruct tag as [|? tag]; simpl in H; [discriminate|];
          match type of H with
          | (if ?c then _ else _) = true =>
              destruct c as [->|]; [|discriminate]
          end).
    now exists tag.
  - intros [rest ->]. simpl.
    repeat match goal with
           | |- context [ascii_dec ?a ?a] =>
               destruct (ascii_dec a a); [|congruence]
           end.
    now destruct rest.
Qed.

Lemma discarding_iff (r : PGresult) : discarding r = true <-> invalidating r.
Proof.
  unfold discarding, invalidating, invalidating_tag.
  destruct r as [st [tag|]]; simpl.
  - destruct st; simpl.
    + rewrite andb_true_iff, orb_true_iff, prefix_DROP, String.eqb_eq.
      split.
      * intros [_ H]. split; [reflexivity|]. exists tag. auto.
      * intros [_ (tag' & [= <-] & H)]. split; [|exact H].
        destruct H as [[rest ->]| ->]; reflexivity.
    + split; [discriminate | intros [[=] _]].
    + split; [discriminate | intros [[=] _]].
  - destruct st; simpl; (split; [discriminate|]).
    + intros [_ (tag & [=] & _)].
    + intros [[=] _].
    + intros [[=] _].
Qed.

Lemma nonempty_true (d : OrderedDict.t) :
  OrderedDict.nonempty d = true <-> d <> [].
Proof. destruct d; simpl; split; congruence. Qed.

Lemma gate_open pm prep :
  _prepared pm <> [] \/ prep = SHOULD ->
  OrderedDict.nonempty (_prepared pm) || Prepare_eqb prep SHOULD = true.
Proof.
  intros [H| ->]; apply orb_true_iff.
  - left. now apply nonempty_true.
  - right. reflexivity.
Qed.

Lemma should_discard_cases (pm : PrepareManager) (prep : Prepare)
  (results : list PGresult) :
  _prepared pm <> [] \/ prep = SHOULD ->
  ((exists r, In r results /\ invalidating r) ->
   should_discard pm prep results = (Some "DEALLOCATE ALL", set_prepared pm []))
  /\ (~ (exists r, In r results /\ invalidating r) ->
      should_discard pm prep results = (None, pm)).
Proof.
  intros Hgate. unfold should_discard. rewrite (gate_open _ _ Hgate).
  destruct (existsb discarding results) eqn:He.
  - split; [reflexivity|]. intros Hn. exfalso. apply Hn.
    apply existsb_exists in He as (r & Hin & Hr).
    exists r. split; [exact Hin | now apply discarding_iff].
  - split; [|reflexivity]. intros (r & Hin & Hr).
    apply discarding_iff in Hr.
    assert (existsb discarding results = true)
      by (apply existsb_exists; eauto).
    congruence.
Qed.

(** C9 (as the code has it). When the check is made (the cache is not empty,
    or the call records a promotion), [should_discard] answers
    [DEALLOCATE ALL] and empties the cache if and only if some result has
    status [COMMAND_OK] and a command tag that begins with the five bytes
    [DROP] and space, or is exactly [ROLLBACK]; otherwise it answers nothing
    and changes nothing. The comparison is on the bytes as they are. *)
Theorem should_discard_matches (pm : PrepareManager) (prep : Prepare)
  (results : list PGresult) :
  _prepared pm <> [] \/ prep = SHOULD ->
  ((exists r, In r results /\ invalidating r) ->
   should_discard pm prep results = (Some "DEALLOCATE ALL", set_prepared pm []))
  /\ (~ (exists r, In r results /\ invalidating r) ->
      should_discard pm prep results = (None, pm)).
Proof. exact (should_discard_cases pm prep results). Qed.

Lemma should_discard_matches_witness :
  should_discard (mkPM (Some 5) 100 [(key query_F, VInt 1)] 0) NO drop_table_ok
  = (Some "DEALLOCATE ALL", mkPM (Some 5) 100 [] 0).
Proof.
  apply (should_discard_matches
           (mkPM (Some 5) 100 [(key query_F, VInt 1)] 0) NO drop_table_ok).
  - left. simpl. discriminate.
  - exists (mkResult COMMAND_OK (Some "DROP TABLE")). split.
    + simpl. auto.
    + split; [reflexivity|]. exists "DROP TABLE". split; [reflexivity|].
      left. exists "TABLE". reflexivity.
Defined.

(** C9, as stated, fails: the tag made of the bytes [DROP] alone has [DROP]
    as its leading token, and [should_discard] does not match it. *)
Lemma bare_DROP_not_matched :
  leading_token "DROP" = "DROP"
  /\ spec_invalidating "DROP" = true
  /\ should_discard (mkPM (Some 5) 100 [(key query_F, VInt 1)] 0) NO
       bare_drop_ok
     = (None, mkPM (Some 5) 100 [(key query_F, VInt 1)] 0).
Proof. repeat split. Qed.

(** C2 (as the code has it). When preparing is enabled and the cache is not
    empty or the call records a promotion, a result of status [COMMAND_OK]
    whose tag begins with [DROP] and a space, or is [ROLLBACK], makes
    [maintain] empty the cache and answer [DEALLOCATE ALL], whatever the
    counts and whether or not the query of the call is cached; the name
    counter is left as it is. *)
Theorem maintain_invalidation (pm : PrepareManager) (q : PostgresQuery)
  (results : list PGresult) (prep : Prepare) (name : bytes) (T : Z) :
  prepare_threshold pm = Some T ->
  _prepared pm <> [] \/ prep = SHOULD ->
  (exists r, In r results /\ invalidating r) ->
  maintain pm q results prep name
  = (Some "DEALLOCATE ALL", set_prepared pm []).
Proof.
  intros Ht Hgate Hex. unfold maintain. rewrite Ht.
  destruct (should_discard_cases pm prep results Hgate) as [H _].
  now rewrite (H Hex).
Qed.

Lemma maintain_invalidation_witness :
  maintain (mkPM (Some 5) 100 [(key query_F, VInt 4)] 0) query_G rollback_ok
    NO ""
  = (Some "DEALLOCATE ALL", mkPM (Some 5) 100 [] 0).
Proof.
  apply (maintain_invalidation
           (mkPM (Some 5) 100 [(key query_F, VInt 4)] 0) query_G rollback_ok
           NO "" 5).
  - reflexivity.
  - left. simpl. discriminate.
  - exists (mkResult COMMAND_OK (Some "ROLLBACK")). split.
    + simpl. auto.
    + split; [reflexivity|]. exists "ROLLBACK". split; [reflexivity|].
      right. reflexivity.
Defined.

(** C2, as stated, fails: on an empty cache, a call that records no
    promotion does not look at the results; a [ROLLBACK] result is cached as
    seen once and no command is answered. *)
Lemma rollback_on_empty_cache_not_discarded :
  maintain (init (Some 5) 100) query_rollback rollback_ok NO ""
  = (None, mkPM (Some 5) 100 [(key query_rollback, VInt 1)] 0).
Proof. reflexivity. Qed.

Lemma get_cases (pm : PrepareManager) (q : PostgresQuery)
  (prepare : option bool) (T : Z) :
  prepare_threshold pm = Some T ->
  prepare <> Some false ->
  (forall name, OrderedDict.get (key q) (_prepared pm) <> Some (VBytes name)) ->
  (T <= seen_count pm q \/ prepare = Some true ->
   get pm q prepare
   = ((SHOULD, pg3_name (_prepared_idx pm)),
      set_prepared_idx pm (_prepared_idx pm + 1)%N))
  /\ (~ (T <= seen_count pm q \/ prepare = Some true) ->
      get pm q prepare = ((NO, ""), pm)).
Proof.
  intros Ht Hp Hname. unfold get, seen_count in *. rewrite Ht.
  destruct (OrderedDict.get (key q) (_prepared pm)) as [[n|b]|] eqn:Hg;
    try (exfalso; now apply (Hname b)).
  - destruct prepare as [[|]|]; try congruence; simpl.
    + rewrite orb_true_r. split; [reflexivity|]. intros H. exfalso. auto.
    + rewrite orb_false_r. destruct (n >=? T)%Z eqn:Hc.
      * split; [reflexivity|]. intros H. exfalso. apply H. left.
        apply Z.geb_le in Hc. lia.
      * split; [|reflexivity]. intros [H|H]; [|discriminate].
        apply Z.geb_le in H. congruence.
  - destruct prepare as [[|]|]; try congruence; simpl.
    + rewrite orb_true_r. split; [reflexivity|]. intros H. exfalso. auto.
    + rewrite orb_false_r. destruct (0 >=? T)%Z eqn:Hc.
      * split; [reflexivity|]. intros H. exfalso. apply H. left.
        apply Z.geb_le in Hc. lia.
      * split; [|reflexivity]. intros [H|H]; [|discriminate].
        apply Z.geb_le in H. congruence.
Qed.

(** C6 (as the code has it). With preparing enabled, [prepare] not [False]
    and the query not prepared yet, [get] reads the count of the query, 0
    when it was never seen. If the count has reached the threshold or
    [prepare] is [True], it answers [SHOULD] with the name of the current
    counter and increments the counter; otherwise it answers [NO] and the
    manager is unchanged. *)
Theorem get_decision (pm : PrepareManager) (q : PostgresQuery)
  (prepare : option bool) (T : Z) :
  prepare_threshold pm = Some T ->
  prepare <> Some false ->
  (forall name, OrderedDict.get (key q) (_prepared pm) <> Some (VBytes name)) ->
  (T <= seen_count pm q \/ prepare = Some true ->
   get pm q prepare
   = ((SHOULD, pg3_name (_prepared_idx pm)),
      set_prepared_idx pm (_prepared_idx pm + 1)%N))
  /\ (~ (T <= seen_count pm q \/ prepare = Some true) ->
      get pm q prepare = ((NO, ""), pm)).
Proof. exact (get_cases pm q prepare T). Qed.

Lemma get_decision_witness :
  get (mkPM (Some 3) 1 [(key query_F, VInt 3)] 0) query_F None
  = ((SHOULD, "_pg3_0"), mkPM (Some 3) 1 [(key query_F, VInt 3)] 1).
Proof.
  apply (get_decision (mkPM (Some 3) 1 [(key query_F, VInt 3)] 0) query_F
           None 3).
  - reflexivity.
  - discriminate.
  - intros name. simpl. discriminate.
  - left. unfold seen_count. simpl. lia.
Defined.

(** C6, as stated, fails: a query that was never seen is answered [SHOULD]
    when [prepare] is [True]. *)
Lemma unseen_query_with_override_is_prepared :
  OrderedDict.get (key query_F) (_prepared (init (Some 5) 100)) = None
  /\ get (init (Some 5) 100) query_F (Some true)
     = ((SHOULD, "_pg3_0"), mkPM (Some 5) 100 [] 1).
Proof. split; reflexivity. Qed.

(** ** Counting up to the threshold *)

Lemma remove_replace k v d :
  OrderedDict.remove k (OrderedDict.replace k v d) = OrderedDict.remove k d.
Proof.
  induction d as [|[k' v'] d IH]; simpl; [reflexivity|].
  destruct (Key_eqb k k') eqn:Hk; simpl; rewrite Hk; congruence.
Qed.

Lemma plain_not_discarding results :
  (forall r, In r results -> ~ invalidating r) ->
  existsb discarding results = false.
Proof.
  intros H. destruct (existsb discarding results) eqn:He; [|reflexivity].
  apply existsb_exists in He as (r & Hin & Hr).
  apply discarding_iff in Hr. now apply H in Hin.
Qed.

Lemma should_discard_plain pm prep results :
  (forall r, In r results -> ~ invalidating r) ->
  should_discard pm prep results = (None, pm).
Proof.
  intros H. unfold should_discard. rewrite (plain_not_discarding _ H).
  now destruct (_ || _).
Qed.

Lemma maintain_counted pm q results name T n :
  prepare_threshold pm = Some T ->
  counted pm (key q) n ->
  (forall r, In r results -> ~ invalidating r) ->
  counted (snd (maintain pm q results NO name)) (key q) (n + 1).
Proof.
  intros Ht (d & Hd & Hfresh) Hplain. unfold maintain.
  rewrite Ht, (should_discard_plain _ _ _ Hplain).
  unfold setdefault.
  assert (Hg : OrderedDict.get (key q) (_prepared pm) = Some (VInt n))
    by (rewrite Hd; now apply OrderedDictFacts.get_app_absent).
  rewrite Hg. simpl Prepare_eqb. cbv iota.
  rewrite (OrderedDictFacts.setitem_present _ _ _ _ Hg).
  unfold OrderedDict.move_to_end.
  rewrite (OrderedDictFacts.get_replace _ _ _ _ Hg), remove_replace.
  simpl. exists d. split; [|exact Hfresh].
  rewrite Hd. now rewrite OrderedDictFacts.remove_app_absent.
Qed.

Lemma get_tail_None k kv d :
  OrderedDict.get k (kv :: d) = None -> OrderedDict.get k d = None.
Proof.
  destruct kv as [k' v']. simpl. now destruct (Key_eqb k k').
Qed.

Lemma maintain_fresh pm q results name T :
  prepare_threshold pm = Some T ->
  1 <= prepared_max pm ->
  OrderedDict.get (key q) (_prepared pm) = None ->
  plain_results results ->
  counted (snd (maintain pm q results NO name)) (key q) 1.
Proof.
  intros Ht Hmax Hfresh [Hel Hplain]. unfold maintain.
  rewrite Ht, (should_discard_plain _ _ _ Hplain).
  unfold setdefault. rewrite Hfresh. simpl Prepare_eqb. cbv iota.
  destruct results as [|r [|r' rs]]; try discriminate.
  simpl in Hel.
  replace (negb (ExecStatus_eqb COMMAND_OK (status r))
           && negb (ExecStatus_eqb (status r) TUPLES_OK)) with false
    by (destruct (status r); simpl in *; congruence).
  rewrite (OrderedDictFacts.setitem_absent _ _ _ Hfresh).
  destruct (_ <=? _)%Z eqn:Hle.
  - simpl. exists (_prepared pm). auto.
  - apply Z.leb_gt in Hle. unfold OrderedDict.len in Hle.
    rewrite length_app in Hle. simpl in Hle.
    destruct (_prepared pm) as [|[k' v'] d] eqn:Hd; simpl in Hle; [lia|].
    simpl. apply get_tail_None in Hfresh.
    destruct v'; simpl; exists d; auto.
Qed.

Lemma record_all_counted rss : forall pm q T n,
  prepare_threshold pm = Some T ->
  counted pm (key q) n ->
  Forall plain_results rss ->
  counted (record_all pm q rss) (key q) (n + Z.of_nat (List.length rss))
  /\ prepare_threshold (record_all pm q rss) = Some T
  /\ _prepared_idx (record_all pm q rss) = _prepared_idx pm.
Proof.
  induction rss as [|results rss IH]; intros pm q T n Ht Hc Hall.
  - simpl. rewrite Z.add_0_r. auto.
  - inversion Hall as [|? ? [_ Hplain] Hall']; subst.
    destruct (maintain_config pm q results NO "") as (Ht' & _ & Hi').
    cbn [record_all].
    destruct (IH (snd (maintain pm q results NO "")) q T (n + 1))
      as (Hc2 & Ht2 & Hi2).
    + now rewrite Ht'.
    + now apply (maintain_counted pm q results "" T n).
    + exact Hall'.
    + split; [|split].
      * replace (n + Z.of_nat (List.length (results :: rss)))
          with (n + 1 + Z.of_nat (List.length rss))
          by (cbn [List.length]; lia).
        exact Hc2.
      * exact Ht2.
      * now rewrite Hi2.
Qed.

Lemma record_all_fresh rss : forall pm q T,
  prepare_threshold pm = Some T ->
  1 <= prepared_max pm ->
  OrderedDict.get (key q) (_prepared pm) = None ->
  Forall plain_results rss ->
  seen_count (record_all pm q rss) q = Z.of_nat (List.length rss)
  /\ (forall name,
        OrderedDict.get (key q) (_prepared (record_all pm q rss))
        <> Some (VBytes name))
  /\ prepare_threshold (record_all pm q rss) = Some T
  /\ _prepared_idx (record_all pm q rss) = _prepared_idx pm.
Proof.
  intros pm q T Ht Hmax Hfresh Hall. destruct rss as [|results rss].
  - simpl. unfold seen_count. rewrite Hfresh. repeat split; auto.
    discriminate.
  - inversion Hall as [|? ? Hplain Hall']; subst.
    destruct (maintain_config pm q results NO "") as (Ht' & _ & Hi').
    cbn [record_all].
    destruct (record_all_counted rss (snd (maintain pm q results NO "")) q T 1)
      as ((d & Hd & Hdf) & Ht2 & Hi2).
    + now rewrite Ht'.
    + now apply (maintain_fresh pm q results "" T).
    + exact Hall'.
    + assert (Hg : OrderedDict.get (key q)
                     (_prepared
                        (record_all (snd (maintain pm q results NO "")) q rss))
                   = Some (VInt (1 + Z.of_nat (List.length rss))))
        by (rewrite Hd; now apply OrderedDictFacts.get_app_absent).
      unfold seen_count. rewrite Hg. repeat split.
      * cbn [List.length]. lia.
      * discriminate.
      * exact Ht2.
      * now rewrite Hi2.
Qed.

(** C1 (as the code has it). With threshold [T >= 1], room for at least one
    entry, and a query that is not in the cache: after [T - 1] calls of
    [maintain] for it, each with [Prepare.NO] and a single result of status
    [COMMAND_OK] or [TUPLES_OK] that is not an invalidating one, [get] with
    no [prepare] argument still answers [NO]; after the [T]-th such call it
    answers [SHOULD] with the name of the current counter. *)
Theorem threshold_promotion (pm : PrepareManager) (q : PostgresQuery) (T : Z)
  (rss : list (list PGresult)) :
  prepare_threshold pm = Some T ->
  1 <= T ->
  1 <= prepared_max pm ->
  OrderedDict.get (key q) (_prepared pm) = None ->
  Forall plain_results rss ->
  (Z.of_nat (List.length rss) = T - 1 ->
   fst (get (record_all pm q rss) q None) = (NO, ""))
  /\ (Z.of_nat (List.length rss) = T ->
      fst (get (record_all pm q rss) q None)
      = (SHOULD, pg3_name (_prepared_idx pm))).
Proof.
  intros Ht HT Hmax Hfresh Hall.
  destruct (record_all_fresh rss pm q T Ht Hmax Hfresh Hall)
    as (Hcount & Hname & Ht' & Hidx).
  destruct (get_cases (record_all pm q rss) q None T Ht') as [Hyes Hno];
    [discriminate | exact Hname |].
  split; intros Hlen.
  - rewrite Hno; [reflexivity|]. rewrite Hcount.
    intros [H|H]; [lia | discriminate].
  - rewrite Hyes; [|left; lia]. simpl. now rewrite Hidx.
Qed.

Lemma threshold_promotion_witness :
  fst (get (record_all (init (Some 3) 1) query_F [select_ok; select_ok])
         query_F None) = (NO, "")
  /\ fst (get (record_all (init (Some 3) 1) query_F
                 [select_ok; select_ok; select_ok]) query_F None)
     = (SHOULD, "_pg3_0").
Proof.
  assert (Hplain : plain_results select_ok).
  { split; [reflexivity|]. intros r [<-|[]] [Hs _]. discriminate. }
  split.
  - apply (threshold_promotion (init (Some 3) 1) query_F 3
             [select_ok; select_ok]); simpl; try reflexivity; try lia.
    repeat constructor; apply Hplain.
  - apply (threshold_promotion (init (Some 3) 1) query_F 3
             [select_ok; select_ok; select_ok]);
      simpl; try reflexivity; try lia.
    repeat constructor; apply Hplain.
Defined.

(** C1, as stated, fails: a [ROLLBACK] executed twice passes the gate both
    times (one result, [COMMAND_OK]), but the second call finds the cache
    non-empty and empties it; with threshold 2, [get] still answers [NO]
    after the second call. *)
Lemma rollback_twice_is_not_promoted :
  eligible rollback_ok = true
  /\ OrderedDict.get (key query_rollback) (_prepared (init (Some 2) 100)) = None
  /\ fst (get (record_all (init (Some 2) 100) query_rollback
                 [rollback_ok; rollback_ok]) query_rollback None)
     = (NO, "").
Proof. repeat split. Qed.

(** ** Names *)

Lemma decimal_inj (a b : N) : decimal a = decimal b -> a = b.
Proof.
  unfold decimal. intros H.
  apply (f_equal NilEmpty.uint_of_string) in H.
  rewrite !NilEmpty.usu in H. injection H as H.
  apply (f_equal N.of_uint) in H.
  now rewrite !DecimalN.Unsigned.of_to in H.
Qed.

Lemma pg3_name_inj (a b : N) : pg3_name a = pg3_name b -> a = b.
Proof.
  unfold pg3_name. simpl. intros [= H]. now apply decimal_inj.
Qed.

Lemma get_idx pm q prepare :
  (exists name,
      fst (get pm q prepare) = (SHOULD, name)
      /\ name = pg3_name (_prepared_idx pm)
      /\ _prepared_idx (snd (get pm q prepare)) = (_prepared_idx pm + 1)%N)
  \/ (fst (fst (get pm q prepare)) <> SHOULD
      /\ _prepared_idx (snd (get pm q prepare)) = _prepared_idx pm).
Proof.
  unfold get.
  destruct prepare as [[|]|], (prepare_threshold pm); simpl;
    try (right; split; [discriminate | reflexivity]);
    destruct (OrderedDict.get _ _) as [[n|b]|]; simpl;
    try (right; split; [discriminate | reflexivity]);
    try match goal with |- context [if ?c then _ else _] => destruct c end;
    simpl;
    try (right; split; [discriminate | reflexivity]);
    left; eexists; repeat split.
Qed.

Lemma names_issued_seq ops : forall pm,
  Forall (fun op => op <> OpClear) ops ->
  exists k : nat,
    names_issued pm ops
    = map (fun i => pg3_name (_prepared_idx pm + N.of_nat i)) (seq 0 k)
    /\ _prepared_idx (run pm ops) = (_prepared_idx pm + N.of_nat k)%N.
Proof.
  induction ops as [|op ops IH]; intros pm Hall.
  - exists 0%nat. simpl. split; [reflexivity | lia].
  - inversion Hall as [|? ? Hop Hall']; subst.
    destruct (IH (step pm op) Hall') as (k & Hn & Hi).
    cbn [names_issued run fold_left]. fold (run (step pm op) ops).
    destruct op as [q prepare|q results prep name|]; [| |congruence].
    + destruct (get_idx pm q prepare)
        as [(name & Hf & -> & Hidx)|[Hf Hidx]].
      * exists (S k). cbn [step] in *. rewrite Hf, Hn, Hi, Hidx. split.
        -- cbn [seq map app]. rewrite N.add_0_r. f_equal.
           rewrite <- seq_shift, map_map. apply map_ext. intros i.
           f_equal. lia.
        -- lia.
      * exists k. cbn [step] in *. rewrite Hn, Hi, Hidx. split; [|reflexivity].
        destruct (fst (get pm q prepare)) as [[| |] name]; simpl in *;
          congruence.
    + exists k. cbn [step] in *.
      destruct (maintain_config pm q results prep name) as (_ & _ & Hidx).
      rewrite Hn, Hi, Hidx. split; reflexivity.
Qed.

(** C5 (as the code has it). Between two resets the names are unique: in a
    sequence of [get] and [maintain] calls without [clear], starting from
    any state, the [get] calls that answer [SHOULD] return pairwise distinct
    names; evictions and invalidations, which happen inside [maintain], do
    not bring a name back. *)
Theorem names_unique_between_resets (pm : PrepareManager) (ops : list Op) :
  Forall (fun op => op <> OpClear) ops ->
  NoDup (names_issued pm ops).
Proof.
  intros Hall.
  destruct (names_issued_seq ops pm Hall) as (k & -> & _).
  apply Injective_map_NoDup; [|apply seq_NoDup].
  intros i j H. apply pg3_name_inj in H. lia.
Qed.

Lemma names_unique_between_resets_witness :
  NoDup
    (names_issued (init (Some 5) 1)
       [OpGet query_F (Some true);
        OpMaintain query_F select_ok SHOULD "_pg3_0";
        OpGet query_G (Some true);
        OpMaintain query_G select_ok SHOULD "_pg3_1";
        OpGet query_F (Some true)]).
Proof.
  apply (names_unique_between_resets (init (Some 5) 1)).
  repeat constructor; discriminate.
Defined.

(** C5, as stated, fails: [clear] sets the counter back to 0, so the first
    name handed out after a reset is the first name handed out before it. *)
Lemma name_reused_after_clear :
  names_issued (init (Some 5) 100)
    [OpGet query_F (Some true);
     OpMaintain query_F select_ok SHOULD "_pg3_0";
     OpClear;
     OpGet query_G (Some true)]
  = ["_pg3_0"; "_pg3_0"]
  /\ ~ NoDup
       (names_issued (init (Some 5) 100)
          [OpGet query_F (Some true);
           OpMaintain query_F select_ok SHOULD "_pg3_0";
           OpClear;
           OpGet query_G (Some true)]).
Proof.
  split; [reflexivity|].
  intros H. inversion H as [|x l Hnotin _]; subst.
  apply Hnotin. simpl. auto.
Qed.

(** ** Recency order *)

Lemma age_cons_same k log : age k (Some k :: log) = 0%nat.
Proof. simpl. now rewrite Key_eqb_refl. Qed.

Lemma age_cons_other k k' log :
  k <> k' -> age k (Some k' :: log) = S (age k log).
Proof. intros H. simpl. apply Key_eqb_neq in H. now rewrite H. Qed.

Lemma age_cons_untouched k e log :
  e <> Some k -> age k (e :: log) = S (age k log).
Proof.
  intros H. destruct e as [k'|]; [|reflexivity].
  apply age_cons_other. congruence.
Qed.

Lemma nth_age k log :
  In (Some k) log -> nth_error log (age k log) = Some (Some k).
Proof.
  induction log as [|e log IH]; simpl; [tauto|].
  intros Hin. destruct e as [k'|].
  - destruct (Key_eqb k k') eqn:Hk.
    + apply Key_eqb_eq in Hk. now subst.
    + apply Key_eqb_neq in Hk. simpl. apply IH.
      destruct Hin as [H|H]; [congruence | exact H].
  - simpl. apply IH. destruct Hin as [H|H]; [discriminate | exact H].
Qed.

Section SortedLists.

Variable A : Type.
Variables R R' : A -> A -> Prop.

Lemma StronglySorted_impl_In (l : list A) :
  (forall a b, In a l -> In b l -> R a b -> R' a b) ->
  StronglySorted R l -> StronglySorted R' l.
Proof.
  induction l as [|x l IH]; intros Himp Hs; [constructor|].
  apply StronglySorted_inv in Hs as [Hs Hall]. constructor.
  - apply IH; [|exact Hs]. intros a b Ha Hb. apply Himp; now right.
  - rewrite Forall_forall in *. intros b Hb.
    apply Himp; [now left | now right | now apply Hall].
Qed.

Lemma StronglySorted_snoc (l : list A) (x : A) :
  StronglySorted R l -> Forall (fun a => R a x) l ->
  StronglySorted R (l ++ [x]).
Proof.
  induction l as [|y l IH]; intros Hs Hall; simpl.
  - repeat constructor.
  - apply StronglySorted_inv in Hs as [Hs Hy].
    inversion Hall as [|? ? Hyx Hall']; subst. constructor.
    + now apply IH.
    + apply Forall_app. split; [exact Hy | now constructor].
Qed.

End SortedLists.

Lemma keys_remove_incl k d x :
  In x (OrderedDict.keys (OrderedDict.remove k d)) -> In x (OrderedDict.keys d).
Proof.
  unfold OrderedDict.keys.
  induction d as [|[k' v'] d IH]; simpl; [tauto|].
  destruct (Key_eqb k k'); simpl; tauto.
Qed.

Lemma sorted_remove (R : Key -> Key -> Prop) k d :
  StronglySorted R (OrderedDict.keys d) ->
  StronglySorted R (OrderedDict.keys (OrderedDict.remove k d)).
Proof.
  induction d as [|[k' v'] d IH]; simpl; intros Hs; [constructor|].
  apply StronglySorted_inv in Hs as [Hs Hall].
  destruct (Key_eqb k k'); [exact Hs|].
  simpl. constructor; [now apply IH|].
  rewrite Forall_forall in *. intros x Hx. apply Hall.
  now apply keys_remove_incl in Hx.
Qed.

Lemma sorted_remove_notin (R : Key -> Key -> Prop) k d :
  (forall a, ~ R a a) ->
  StronglySorted R (OrderedDict.keys d) ->
  ~ In k (OrderedDict.keys (OrderedDict.remove k d)).
Proof.
  intros Hirr.
  induction d as [|[k' v'] d IH]; simpl; intros Hs; [tauto|].
  apply StronglySorted_inv in Hs as [Hs Hall].
  destruct (Key_eqb k k') eqn:Hk.
  - apply Key_eqb_eq in Hk. subst k'. intros Hin.
    rewrite Forall_forall in Hall. now apply Hall, Hirr in Hin.
  - apply Key_eqb_neq in Hk. simpl. intros [H|H]; [congruence|].
    now apply IH.
Qed.

Lemma lru_ordered_nil log : lru_ordered [] log.
Proof. split; constructor. Qed.

Lemma lru_ordered_shift ks e log :
  (forall k, e = Some k -> ~ In k ks) ->
  lru_ordered ks log -> lru_ordered ks (e :: log).
Proof.
  intros He [Hs Hin]. split.
  - apply (StronglySorted_impl_In _ (fun a b => (age b log < age a log)%nat));
      [|exact Hs].
    intros a b Ha Hb Hab.
    rewrite !age_cons_untouched; [lia| |];
      intros ->; eapply He; eauto.
  - rewrite Forall_forall in *. intros k Hk. right. now apply Hin.
Qed.

Lemma lru_ordered_touch ks k log :
  ~ In k ks -> lru_ordered ks log -> lru_ordered (ks ++ [k]) (Some k :: log).
Proof.
  intros Hk Hl.
  destruct (lru_ordered_shift ks (Some k) log) as [Hs Hin]; [|exact Hl|].
  { intros k' [= <-]. exact Hk. }
  split.
  - apply StronglySorted_snoc; [exact Hs|].
    rewrite Forall_forall. intros a Ha.
    rewrite age_cons_same, age_cons_other; [lia|]. intros ->. tauto.
  - apply Forall_app. split; [exact Hin|]. repeat constructor.
Qed.

Lemma lru_ordered_tl ks log : lru_ordered ks log -> lru_ordered (tl ks) log.
Proof.
  intros [Hs Hin]. destruct ks as [|k ks]; [split; constructor|].
  apply StronglySorted_inv in Hs as [Hs _].
  inversion Hin; subst. now split.
Qed.

Lemma lru_ordered_remove k d log :
  lru_ordered (OrderedDict.keys d) log ->
  lru_ordered (OrderedDict.keys (OrderedDict.remove k d)) log
  /\ ~ In k (OrderedDict.keys (OrderedDict.remove k d)).
Proof.
  intros [Hs Hin]. split; [split|].
  - now apply sorted_remove.
  - rewrite Forall_forall in *. intros x Hx.
    apply Hin. now apply keys_remove_incl in Hx.
  - eapply sorted_remove_notin; [|exact Hs]. intros a. simpl. lia.
Qed.

Lemma keys_app d d' :
  OrderedDict.keys (d ++ d') = OrderedDict.keys d ++ OrderedDict.keys d'.
Proof. apply map_app. Qed.

(** What a [maintain] call does to the keys of the cache, by the key it
    touches. *)
Lemma maintain_keys pm q results prep name :
  let d := _prepared pm in
  let d' := _prepared (snd (maintain pm q results prep name)) in
  let t := touches pm (OpMaintain q results prep name) in
  (t = None /\ (d' = d \/ d' = []))
  \/ (t = Some (key q)
      /\ OrderedDict.keys d'
         = OrderedDict.keys (OrderedDict.remove (key q) d) ++ [key q])
  \/ (t = Some (key q)
      /\ OrderedDict.get (key q) d = None
      /\ (OrderedDict.keys d' = OrderedDict.keys d ++ [key q]
          \/ OrderedDict.keys d' = tl (OrderedDict.keys d ++ [key q]))).
Proof.
  cbv zeta. unfold maintain, touches.
  destruct (prepare_threshold pm) as [T|]; [|left; auto].
  destruct (should_discard pm prep results) as [[cmd|] pm1] eqn:Hd.
  { apply should_discard_Some in Hd as [_ ->]. left. simpl. auto. }
  apply should_discard_None in Hd as ->. cbn [fst].
  unfold setdefault, OrderedDict.contains.
  destruct (OrderedDict.get (key q) (_prepared pm)) as [v|] eqn:Hg.
  - right. left. split; [reflexivity|].
    assert (Hrep : forall w,
               OrderedDict.move_to_end (key q)
                 (OrderedDict.setitem (key q) w (_prepared pm))
               = Some (OrderedDict.remove (key q) (_prepared pm)
                       ++ [(key q, w)])).
    { intros w. rewrite (OrderedDictFacts.setitem_present _ _ _ _ Hg).
      unfold OrderedDict.move_to_end.
      now rewrite (OrderedDictFacts.get_replace _ _ _ _ Hg), remove_replace. }
    destruct v as [n|b].
    + destruct (Prepare_eqb prep SHOULD); rewrite Hrep; simpl;
        now rewrite keys_app.
    + unfold OrderedDict.move_to_end. rewrite Hg. simpl. now rewrite keys_app.
  - cbn [orb].
    destruct results as [|r [|r' rs]]; cbn [eligible snd]; try (left; now auto).
    destruct (status r); cbn [ExecStatus_eqb orb andb negb];
      try (left; now auto); right; right;
      (split; [reflexivity|]); (split; [reflexivity|]);
      rewrite (OrderedDictFacts.setitem_absent _ _ _ Hg);
      (destruct (_ <=? _)%Z;
       [left; simpl; now rewrite keys_app|]);
      right;
      match goal with
      | |- context [_prepared pm ++ [(key q, ?v)]] =>
          rewrite <- (keys_app (_prepared pm) [(key q, v)] : _ = _ ++ [key q]);
          destruct (_prepared pm ++ [(key q, v)]) as [|[k' [n|b]] d'] eqn:Hd
      end;
      simpl; try reflexivity;
      now destruct (_prepared pm).
Qed.

Lemma step_lru_ordered pm op log :
  lru_ordered (OrderedDict.keys (_prepared pm)) log ->
  lru_ordered (OrderedDict.keys (_prepared (step pm op)))
    (touches pm op :: log).
Proof.
  intros Hl. destruct op as [q prepare|q results prep name|].
  - cbn [step touches]. rewrite get_prepared.
    apply lru_ordered_shift; [discriminate | exact Hl].
  - cbn [step].
    destruct (maintain_keys pm q results prep name)
      as [[-> [->| ->]]|[[-> ->]|(-> & Hg & [->| ->])]].
    + apply lru_ordered_shift; [discriminate | exact Hl].
    + apply lru_ordered_nil.
    + destruct (lru_ordered_remove (key q) (_prepared pm) log Hl).
      now apply lru_ordered_touch.
    + apply lru_ordered_touch; [|exact Hl].
      now apply OrderedDictFacts.get_None_keys.
    + apply lru_ordered_tl, lru_ordered_touch; [|exact Hl].
      now apply OrderedDictFacts.get_None_keys.
  - cbn [step touches]. unfold clear. destruct (_ =? _)%N; simpl.
    + apply lru_ordered_shift; [discriminate | exact Hl].
    + apply lru_ordered_nil.
Qed.

Lemma run_lru_ordered ops : forall pm log,
  lru_ordered (OrderedDict.keys (_prepared pm)) log ->
  lru_ordered (OrderedDict.keys (_prepared (run pm ops)))
    (run_touches pm ops log).
Proof.
  induction ops as [|op ops IH]; intros pm log Hl; [exact Hl|].
  simpl. apply IH. now apply step_lru_ordered.
Qed.

(** C4. Take the manager reached from the empty cache by any sequence of
    calls, and a [maintain] call on it that inserts its key and so pushes the
    size above [prepared_max] (preparing enabled, nothing invalidated, key
    not cached, results through the gate). Then exactly one entry leaves the
    cache, the first of the cache as it is after the insertion; that entry
    was touched, and longer ago than every entry that stays; the call
    answers [DEALLOCATE] and the name when the entry held a name, and
    nothing when it held a count. *)
Theorem eviction_is_lru (threshold : option Z) (max : Z) (ops : list Op)
  (q : PostgresQuery) (results : list PGresult) (prep : Prepare)
  (name : bytes) (T : Z) :
  let pm := run (init threshold max) ops in
  let log :=
    touches pm (OpMaintain q results prep name)
    :: run_touches (init threshold max) ops [] in
  let value := if Prepare_eqb prep SHOULD then VBytes name else VInt 1 in
  prepare_threshold pm = Some T ->
  fst (should_discard pm prep results) = None ->
  OrderedDict.get (key q) (_prepared pm) = None ->
  eligible results = true ->
  prepared_max pm < OrderedDict.len (_prepared pm) + 1 ->
  exists ke ve rest,
    _prepared pm ++ [(key q, value)] = (ke, ve) :: rest
    /\ maintain pm q results prep name
       = (match ve with
          | VBytes old_val => Some ("DEALLOCATE " ++ old_val)%string
          | VInt _ => None
          end, set_prepared pm rest)
    /\ nth_error log (age ke log) = Some (Some ke)
    /\ forall k', In k' (OrderedDict.keys rest) ->
                  (age k' log < age ke log)%nat.
Proof.
  intros pm log value Ht Hd Hfresh Hel Hmax.
  assert (Hord : lru_ordered
                   (OrderedDict.keys (_prepared pm ++ [(key q, value)])) log).
  { unfold log, touches. rewrite Ht, Hd.
    unfold OrderedDict.contains. rewrite Hfresh, Hel. cbn [orb].
    rewrite keys_app. apply lru_ordered_touch.
    - now apply OrderedDictFacts.get_None_keys.
    - apply run_lru_ordered. apply lru_ordered_nil. }
  destruct (_prepared pm ++ [(key q, value)]) as [|[ke ve] rest] eqn:Hins.
  { now destruct (_prepared pm). }
  exists ke, ve, rest. split; [reflexivity|].
  destruct Hord as [Hs Hin]. simpl in Hs, Hin.
  apply StronglySorted_inv in Hs as [_ Hlt].
  inversion Hin as [|? ? Hke _]; subst.
  split; [|split].
  - unfold maintain. rewrite Ht.
    destruct (should_discard pm prep results) as [[cmd|] pm1] eqn:Hsd;
      [discriminate|].
    apply should_discard_None in Hsd as ->.
    unfold setdefault. rewrite Hfresh. fold value.
    destruct results as [|r [|r' rs]]; try discriminate.
    simpl in Hel.
    replace (negb (ExecStatus_eqb COMMAND_OK (status r))
             && negb (ExecStatus_eqb (status r) TUPLES_OK)) with false
      by (destruct (status r); simpl in *; congruence).
    rewrite (OrderedDictFacts.setitem_absent _ _ _ Hfresh), Hins.
    replace (OrderedDict.len ((ke, ve) :: rest) <=? prepared_max pm)%Z
      with false.
    + simpl. now destruct ve.
    + symmetry. apply Z.leb_gt. rewrite <- Hins.
      unfold OrderedDict.len in *. rewrite length_app. simpl. lia.
  - now apply nth_age.
  - rewrite Forall_forall in Hlt. exact Hlt.
Qed.

Lemma eviction_is_lru_witness :
  maintain
    (run (init (Some 3) 1)
       [OpMaintain query_F select_ok NO "";
        OpMaintain query_F select_ok NO "";
        OpMaintain query_F select_ok NO "";
        OpGet query_F None;
        OpMaintain query_F select_ok SHOULD "_pg3_0"])
    query_G select_ok NO ""
  = (Some "DEALLOCATE _pg3_0",
     mkPM (Some 3) 1 [(key query_G, VInt 1)] 1).
Proof.
  pose proof (eviction_is_lru (Some 3) 1
                [OpMaintain query_F select_ok NO "";
                 OpMaintain query_F select_ok NO "";
                 OpMaintain query_F select_ok NO "";
                 OpGet query_F None;
                 OpMaintain query_F select_ok SHOULD "_pg3_0"]
                query_G select_ok NO "" 3) as H.
  cbv zeta in H.
  specialize (H eq_refl eq_refl eq_refl eq_refl eq_refl).
  destruct H as (ke & ve & rest & Hins & Hm & _).
  injection Hins as <- <- <-. exact Hm.
Defined.

(** ** The wait loops, window by window *)

Section WaitingFacts.

Variables RV E St : Type.

Lemma selector_loop_nil (gen : PQGen RV E St) timeout st s sent :
  selector_loop gen timeout st s [] sent
  = if negb (valid_events s) then (Raised ValueError, sent)
    else (Waiting, sent).
Proof. reflexivity. Qed.

Lemma selector_loop_empty (gen : PQGen RV E St) timeout st s tr sent :
  selector_loop gen timeout st s ([] :: tr) sent
  = selector_loop gen timeout st s tr sent.
Proof. destruct tr, timeout; reflexivity. Qed.

Lemma selector_loop_ready (gen : PQGen RV E St) timeout st s fd ready rl tr
  sent :
  selector_loop gen timeout st s (((fd, ready) :: rl) :: tr) sent
  = if negb (valid_events s) then (Raised ValueError, sent)
    else if negb (truthy (Z.land s ready)) then (Raised AssertionError, sent)
    else match gen_send gen st ready with
         | Yield s' st' =>
             selector_loop gen timeout st' s' tr (sent ++ [(s, ready)])
         | Return rv => (Returned rv, sent ++ [(s, ready)])
         | Raise e => (GenRaised e, sent ++ [(s, ready)])
         end.
Proof. destruct timeout; reflexivity. Qed.

Lemma conn_loop_nil (gen : PQGenConn RV E St) timeout st fileno s sent :
  conn_loop gen timeout st fileno s [] sent
  = if negb (valid_events s) then (Raised ValueError, sent)
    else (Waiting, sent).
Proof. reflexivity. Qed.

Lemma conn_loop_empty_None (gen : PQGenConn RV E St) st fileno s tr sent :
  conn_loop gen None st fileno s ([] :: tr) sent
  = conn_loop gen None st fileno s tr sent.
Proof. destruct tr; reflexivity. Qed.

Lemma conn_loop_empty_Some (gen : PQGenConn RV E St) t st fileno s tr sent :
  conn_loop gen (Some t) st fileno s ([] :: tr) sent
  = if negb (valid_events s) then (Raised ValueError, sent)
    else (Raised (OperationalError "timeout expired"), sent).
Proof. reflexivity. Qed.

Lemma conn_loop_ready (gen : PQGenConn RV E St) timeout st fileno s fd ready
  rl tr sent :
  conn_loop gen timeout st fileno s (((fd, ready) :: rl) :: tr) sent
  = if negb (valid_events s) then (Raised ValueError, sent)
    else match gen_send gen st ready with
         | Yield (fileno', s') st' =>
             conn_loop gen timeout st' fileno' s' tr (sent ++ [(s, ready)])
         | Return rv => (Returned rv, sent ++ [(s, ready)])
         | Raise e => (GenRaised e, sent ++ [(s, ready)])
         end.
Proof. destruct timeout; reflexivity. Qed.

Lemma epoll_loop_empty (gen : PQGen RV E St) timeout st s tr sent :
  epoll_loop gen timeout st s ([] :: tr) sent
  = epoll_loop gen timeout st s tr sent.
Proof. reflexivity. Qed.

Lemma async_loop_nil (gen : PQGen RV E St) st s sent :
  async_loop gen st s [] sent
  = match futures s with
    | [] =>
        (Raised (InternalError ("bad poll status: " ++ decimal_Z s)%string),
         sent)
    | _ :: _ => (Waiting, sent)
    end.
Proof. reflexivity. Qed.

Lemma async_loop_cons (gen : PQGen RV E St) st s ev tr sent :
  async_loop gen st s (ev :: tr) sent
  = match futures s with
    | [] =>
        (Raised (InternalError ("bad poll status: " ++ decimal_Z s)%string),
         sent)
    | _ :: _ =>
        match filter (fun f => truthy (Z.land f ev)) (futures s) with
        | [] => async_loop gen st s tr sent
        | done =>
            match gen_send gen st (merge_done done) with
            | Yield s' st' =>
                async_loop gen st' s' tr (sent ++ [(s, merge_done done)])
            | Return rv => (Returned rv, sent ++ [(s, merge_done done)])
            | Raise e => (GenRaised e, sent ++ [(s, merge_done done)])
            end
        end
    end.
Proof.
  cbn [async_loop]. unfold asyncio_wait.
  destruct (futures s) as [|f fs] eqn:Hf; [reflexivity|].
  destruct (filter _ (f :: fs)) as [|d done]; [|reflexivity].
  destruct tr; cbn [async_loop]; rewrite Hf; reflexivity.
Qed.

Lemma conn_async_loop_nil (gen : PQGenConn RV E St) timeout st fileno s sent :
  conn_async_loop gen timeout st fileno s [] sent
  = match futures s with
    | [] =>
        (Raised (InternalError ("bad poll status: " ++ decimal_Z s)%string),
         sent)
    | _ :: _ => (Waiting, sent)
    end.
Proof. reflexivity. Qed.

Lemma conn_async_loop_cons (gen : PQGenConn RV E St) timeout st fileno s ev
  tr sent :
  conn_async_loop gen timeout st fileno s (ev :: tr) sent
  = match futures s with
    | [] =>
        (Raised (InternalError ("bad poll status: " ++ decimal_Z s)%string),
         sent)
    | _ :: _ =>
        match filter (fun f => truthy (Z.land f ev)) (futures s) with
        | [] =>
            match timeout with
            | None => conn_async_loop gen timeout st fileno s tr sent
            | Some _ => (Raised (OperationalError "timeout expired"), sent)
            end
        | done =>
            match gen_send gen st (merge_done done) with
            | Yield (fileno', s') st' =>
                conn_async_loop gen timeout st' fileno' s' tr
                  (sent ++ [(s, merge_done done)])
            | Return rv => (Returned rv, sent ++ [(s, merge_done done)])
            | Raise e => (GenRaised e, sent ++ [(s, merge_done done)])
            end
        end
    end.
Proof.
  cbn [conn_async_loop]. unfold asyncio_wait.
  destruct (futures s) as [|f fs] eqn:Hf; [reflexivity|].
  destruct (filter _ (f :: fs)) as [|d done];
    [|destruct timeout; reflexivity].
  destruct timeout; [reflexivity|].
  destruct tr; cbn [conn_async_loop]; rewrite Hf; reflexivity.
Qed.

End WaitingFacts.

Lemma truthy_true z : truthy z = true <-> z <> 0.
Proof. unfold truthy. destruct (Z.eqb_spec z 0); simpl; split; congruence. Qed.

Lemma land_RW s : Z.land s 1 <> 0 \/ Z.land s 2 <> 0 -> Z.land s 3 <> 0.
Proof.
  intros H H3.
  assert (H1 : Z.land s 1 = Z.land (Z.land s 3) 1)
    by (now rewrite <- Z.land_assoc).
  assert (H2 : Z.land s 2 = Z.land (Z.land s 3) 2)
    by (now rewrite <- Z.land_assoc).
  rewrite H3 in H1, H2. simpl in H1, H2. tauto.
Qed.

Lemma done_shares_bit s ev d done :
  filter (fun f => truthy (Z.land f ev)) (futures s) = d :: done ->
  shares_bit (s, merge_done (d :: done)).
Proof.
  unfold futures, Wait.R, Wait.W, Ready.R, Ready.W, EVENT_READ, EVENT_WRITE,
    shares_bit, merge_done.
  destruct (truthy (Z.land s 1)) eqn:H1;
    destruct (truthy (Z.land s 2)) eqn:H2; cbn [app filter];
    destruct (truthy (Z.land 1 ev)); destruct (truthy (Z.land 2 ev));
    intros H; inversion H; subst; clear H; cbn [fold_left fst snd];
    change (Z.lor (Z.lor 0 1) 2) with 3;
    change (Z.lor 0 1) with 1; change (Z.lor 0 2) with 2;
    try apply truthy_true in H1; try apply truthy_true in H2;
    try assumption; apply land_RW; auto.
Qed.

Section WaitingSent.

Variables RV E St : Type.

Lemma Forall_snoc_shares sent s ready :
  Forall shares_bit sent -> Z.land s ready <> 0 ->
  Forall shares_bit (sent ++ [(s, ready)]).
Proof.
  intros H Hs. apply Forall_app. split; [exact H|]. now repeat constructor.
Qed.

Lemma selector_loop_sent (gen : PQGen RV E St) timeout tr :
  forall st s sent,
    Forall shares_bit sent ->
    Forall shares_bit (snd (selector_loop gen timeout st s tr sent)).
Proof.
  induction tr as [|w tr IH]; intros st s sent Hsent.
  - rewrite selector_loop_nil. now destruct (negb _).
  - destruct w as [|[fd ready] rl].
    + rewrite selector_loop_empty. now apply IH.
    + rewrite selector_loop_ready.
      destruct (negb (valid_events s)); [exact Hsent|].
      destruct (truthy (Z.land s ready)) eqn:Hb; [|exact Hsent].
      apply truthy_true in Hb.
      pose proof (Forall_snoc_shares sent s ready Hsent Hb) as Hsent'.
      cbn [negb].
      destruct (gen_send gen st ready) as [s' st'|rv|e]; auto.
Qed.

Lemma epoll_loop_sent (gen : PQGen RV E St) timeout tr :
  forall st s sent,
    Forall shares_bit sent ->
    Forall shares_bit (snd (epoll_loop gen timeout st s tr sent)).
Proof.
  induction tr as [|w tr IH]; intros st s sent Hsent; [exact Hsent|].
  destruct w as [|[fd ev] rl]; cbn [epoll_loop epoll_poll]; [now apply IH|].
  destruct (truthy (Z.land s (epoll_ready ev))) eqn:Hb; [|exact Hsent].
  apply truthy_true in Hb.
  pose proof (Forall_snoc_shares sent s _ Hsent Hb) as Hsent'.
  cbn [negb].
  destruct (gen_send gen st (epoll_ready ev)) as [s' st'|rv|e]; auto.
  destruct (poll_evmasks s'); auto.
Qed.

Lemma async_loop_sent (gen : PQGen RV E St) tr :
  forall st s sent,
    Forall shares_bit sent ->
    Forall shares_bit (snd (async_loop gen st s tr sent)).
Proof.
  induction tr as [|ev tr IH]; intros st s sent Hsent.
  - rewrite async_loop_nil. now destruct (futures s).
  - rewrite async_loop_cons.
    destruct (futures s) as [|f fs] eqn:Hf; [exact Hsent|].
    destruct (filter _ (f :: fs)) as [|d done] eqn:Hdone; [now apply IH|].
    rewrite <- Hf in Hdone.
    pose proof (done_shares_bit s ev d done Hdone) as Hb.
    unfold shares_bit in Hb. cbn [fst snd] in Hb.
    pose proof (Forall_snoc_shares sent s _ Hsent Hb) as Hsent'.
    cbv zeta.
    destruct (gen_send gen st (merge_done (d :: done))) as [s' st'|rv|e];
      auto.
Qed.

Lemma conn_async_loop_sent (gen : PQGenConn RV E St) timeout tr :
  forall st fileno s sent,
    Forall shares_bit sent ->
    Forall shares_bit (snd (conn_async_loop gen timeout st fileno s tr sent)).
Proof.
  induction tr as [|ev tr IH]; intros st fileno s sent Hsent.
  - rewrite conn_async_loop_nil. now destruct (futures s).
  - rewrite conn_async_loop_cons.
    destruct (futures s) as [|f fs] eqn:Hf; [exact Hsent|].
    destruct (filter _ (f :: fs)) as [|d done] eqn:Hdone.
    + destruct timeout; [exact Hsent | now apply IH].
    + rewrite <- Hf in Hdone.
      pose proof (done_shares_bit s ev d done Hdone) as Hb.
      unfold shares_bit in Hb. cbn [fst snd] in Hb.
      pose proof (Forall_snoc_shares sent s _ Hsent Hb) as Hsent'.
      cbv zeta.
      destruct (gen_send gen st (merge_done (d :: done)))
        as [[fileno' s'] st'|rv|e]; auto.
Qed.

Lemma selector_loop_mismatch (gen : PQGen RV E St) timeout st s sent n fd
  ready rl tr :
  valid_events s = true ->
  Z.land s ready = 0 ->
  selector_loop gen timeout st s (repeat [] n ++ ((fd, ready) :: rl) :: tr)
    sent
  = (Raised AssertionError, sent).
Proof.
  intros Hv Hb. induction n as [|n IH]; cbn [repeat app].
  - rewrite selector_loop_ready, Hv, Hb. reflexivity.
  - now rewrite selector_loop_empty.
Qed.

Lemma epoll_loop_mismatch (gen : PQGen RV E St) timeout st s sent n fd ev rl
  tr :
  Z.land s (epoll_ready ev) = 0 ->
  epoll_loop gen timeout st s (repeat [] n ++ ((fd, ev) :: rl) :: tr) sent
  = (Raised AssertionError, sent).
Proof.
  intros Hb. induction n as [|n IH]; cbn [repeat app].
  - cbn [epoll_loop epoll_poll]. now rewrite Hb.
  - rewrite epoll_loop_empty. exact IH.
Qed.

Lemma conn_loop_None_no_timeout (gen : PQGenConn RV E St) tr :
  forall st fileno s sent msg,
    fst (conn_loop gen None st fileno s tr sent)
    <> Raised (OperationalError msg).
Proof.
  induction tr as [|w tr IH]; intros st fileno s sent msg.
  - rewrite conn_loop_nil. destruct (negb _); discriminate.
  - destruct w as [|[fd ready] rl].
    + rewrite conn_loop_empty_None. apply IH.
    + rewrite conn_loop_ready. destruct (negb _); [discriminate|].
      destruct (gen_send gen st ready) as [[fileno' s'] st'|rv|e];
        [apply IH | discriminate | discriminate].
Qed.

Lemma conn_async_loop_None_no_timeout (gen : PQGenConn RV E St) tr :
  forall st fileno s sent msg,
    fst (conn_async_loop gen None st fileno s tr sent)
    <> Raised (OperationalError msg).
Proof.
  induction tr as [|ev tr IH]; intros st fileno s sent msg.
  - rewrite conn_async_loop_nil. destruct (futures s); discriminate.
  - rewrite conn_async_loop_cons.
    destruct (futures s) as [|f fs]; [discriminate|].
    destruct (filter _ (f :: fs)) as [|d done]; [apply IH|].
    cbv zeta.
    destruct (gen_send gen st (merge_done (d :: done)))
      as [[fileno' s'] st'|rv|e];
      [apply IH | discriminate | discriminate].
Qed.

Lemma async_loop_no_timeout (gen : PQGen RV E St) tr :
  forall st s sent msg,
    fst (async_loop gen st s tr sent) <> Raised (OperationalError msg).
Proof.
  induction tr as [|ev tr IH]; intros st s sent msg.
  - rewrite async_loop_nil. destruct (futures s); discriminate.
  - rewrite async_loop_cons.
    destruct (futures s) as [|f fs]; [discriminate|].
    destruct (filter _ (f :: fs)) as [|d done]; [apply IH|].
    cbv zeta.
    destruct (gen_send gen st (merge_done (d :: done))) as [s' st'|rv|e];
      [apply IH | discriminate | discriminate].
Qed.

Lemma conn_loop_None_waits (gen : PQGenConn RV E St) st fileno s sent n :
  valid_events s = true ->
  conn_loop gen None st fileno s (repeat [] n) sent = (Waiting, sent).
Proof.
  intros Hv. induction n as [|n IH]; cbn [repeat].
  - now rewrite conn_loop_nil, Hv.
  - now rewrite conn_loop_empty_None.
Qed.

Lemma conn_async_loop_None_waits (gen : PQGenConn RV E St) st fileno s sent
  n :
  futures s <> [] ->
  conn_async_loop gen None st fileno s (repeat 0 n) sent = (Waiting, sent).
Proof.
  intros Hf. induction n as [|n IH]; cbn [repeat].
  - rewrite conn_async_loop_nil. now destruct (futures s).
  - rewrite conn_async_loop_cons.
    destruct (futures s) as [|f fs] eqn:Hfs; [congruence|].
    replace (filter (fun f0 => truthy (Z.land f0 0)) (f :: fs)) with (@nil Z).
    + exact IH.
    + symmetry. rewrite <- Hfs. clear.
      induction (futures s) as [|x l IHl]; [reflexivity|].
      simpl. now rewrite Z.land_0_r.
Qed.

End WaitingSent.

(** ** The claims on the wait functions *)

(** C7 (as the code has it). [wait_selector] and [wait_epoll] check the
    readiness they observe against the request: when the two share no bit
    the call fails with [AssertionError] and the generator is not resumed,
    so every value these two send answers its request by at least one bit.
    [wait_async] and [wait_conn_async] build the value from the futures they
    registered for the bits of the request, so what they send shares a bit
    with it as well. *)
Theorem mismatch_is_asserted (RV E St : Type) :
  (forall (gen : PQGen RV E St) timeout st s sent n fd ready rl tr,
      valid_events s = true ->
      Z.land s ready = 0 ->
      selector_loop gen timeout st s
        (repeat [] n ++ ((fd, ready) :: rl) :: tr) sent
      = (Raised AssertionError, sent))
  /\ (forall (gen : PQGen RV E St) timeout st s sent n fd ev rl tr,
         Z.land s (epoll_ready ev) = 0 ->
         epoll_loop gen timeout st s
           (repeat [] n ++ ((fd, ev) :: rl) :: tr) sent
         = (Raised AssertionError, sent))
  /\ (forall (gen : PQGen RV E St) fileno timeout tr,
         Forall shares_bit (snd (wait_selector gen fileno timeout tr)))
  /\ (forall (gen : PQGen RV E St) fileno timeout tr,
         Forall shares_bit (snd (wait_epoll gen fileno timeout tr)))
  /\ (forall (gen : PQGen RV E St) fileno tr,
         Forall shares_bit (snd (wait_async gen fileno tr)))
  /\ (forall (gen : PQGenConn RV E St) timeout tr,
         Forall shares_bit (snd (wait_conn_async gen timeout tr))).
Proof.
  repeat split.
  - intros. now apply selector_loop_mismatch.
  - intros. now apply epoll_loop_mismatch.
  - intros gen fileno timeout tr. unfold wait_selector.
    destruct (gen_next gen) as [s st|rv|e]; try constructor.
    apply selector_loop_sent. constructor.
  - intros gen fileno timeout tr. unfold wait_epoll.
    destruct (gen_next gen) as [s st|rv|e]; try constructor.
    destruct (poll_evmasks s); [|constructor].
    apply epoll_loop_sent. constructor.
  - intros gen fileno tr. unfold wait_async.
    destruct (gen_next gen) as [s st|rv|e]; try constructor.
    apply async_loop_sent. constructor.
  - intros gen timeout tr. unfold wait_conn_async.
    destruct (gen_next gen) as [[fileno s] st|rv|e]; try constructor.
    apply conn_async_loop_sent. constructor.
Qed.

Lemma mismatch_is_asserted_witness :
  selector_loop read_once None tt Wait.R
    (repeat [] 1%nat ++ [(5, Ready.W)] :: []) []
  = (Raised AssertionError, []).
Proof.
  apply (mismatch_is_asserted nat unit unit); reflexivity.
Defined.

(** C7, as stated, fails for [wait_conn]: it has no such check, and resumes
    the generator with a readiness that shares no bit with the request. *)
Lemma wait_conn_resumes_on_mismatch :
  Z.land Wait.R Ready.W = 0
  /\ wait_conn conn_read_once None [[(5, Ready.W)]]
     = (Returned 7%nat, [(Wait.R, Ready.W)]).
Proof. split; reflexivity. Qed.

(** C8 (as the code has it). [wait_conn] and [wait_conn_async] take a
    timeout; with a non-zero one, a wait in which nothing becomes ready ends
    the call with [OperationalError("timeout expired")], which is neither
    the [AssertionError] nor the [InternalError] of the wait functions.
    [wait_async] takes no timeout and never raises that error. *)
Theorem timeout_expired_is_raised (RV E St : Type) :
  (forall (gen : PQGenConn RV E St) t st fileno s tr sent,
      valid_events s = true ->
      conn_loop gen (or_None (Some t)) st fileno s ([] :: tr) sent
      = if Qeq_bool t 0 then conn_loop gen None st fileno s tr sent
        else (Raised (OperationalError "timeout expired"), sent))
  /\ (forall (gen : PQGenConn RV E St) t st fileno s ev tr sent,
         futures s <> [] ->
         filter (fun f => truthy (Z.land f ev)) (futures s) = [] ->
         conn_async_loop gen (or_None (Some t)) st fileno s (ev :: tr) sent
         = if Qeq_bool t 0 then conn_async_loop gen None st fileno s tr sent
           else (Raised (OperationalError "timeout expired"), sent))
  /\ (forall (gen : PQGen RV E St) fileno tr msg,
         fst (wait_async gen fileno tr) <> Raised (OperationalError msg))
  /\ (forall msg,
         OperationalError "timeout expired" <> AssertionError
         /\ OperationalError "timeout expired" <> InternalError msg).
Proof.
  repeat split; try discriminate.
  - intros gen t st fileno s tr sent Hv. unfold or_None.
    destruct (Qeq_bool t 0).
    + apply conn_loop_empty_None.
    + now rewrite conn_loop_empty_Some, Hv.
  - intros gen t st fileno s ev tr sent Hf Hdone. unfold or_None.
    rewrite conn_async_loop_cons, Hdone.
    destruct (futures s); [congruence|].
    now destruct (Qeq_bool t 0).
  - intros gen fileno tr msg. unfold wait_async.
    destruct (gen_next gen) as [s st|rv|e]; try discriminate.
    apply async_loop_no_timeout.
Qed.

Lemma timeout_expired_is_raised_witness :
  conn_loop conn_read_once (or_None (Some 1%Q)) tt 5 Wait.R [[]] []
  = (Raised (OperationalError "timeout expired"), []).
Proof.
  apply (timeout_expired_is_raised nat unit unit). reflexivity.
Defined.

(** C8, as stated, fails for [wait_async]: it has no timeout to give, and
    goes on waiting through windows in which nothing is ready, where
    [wait_conn_async] with a timeout gives up. *)
Lemma wait_async_has_no_timeout :
  wait_async read_once 5 [0; 0; 0] = (Waiting, [])
  /\ wait_conn_async conn_read_once (Some 1%Q) [0; 0; 0]
     = (Raised (OperationalError "timeout expired"), []).
Proof. split; reflexivity. Qed.

(** C10. In [wait_conn] and in [wait_conn_async] a timeout of 0 is the same
    as no timeout: the call does what it does with [None], it never raises
    [OperationalError] (so not "timeout expired"), and while nothing is
    ready it is still waiting. *)
Theorem zero_timeout_waits (RV E St : Type) (gen : PQGenConn RV E St) :
  (forall tr, wait_conn gen (Some 0%Q) tr = wait_conn gen None tr)
  /\ (forall tr msg,
         fst (wait_conn gen (Some 0%Q) tr) <> Raised (OperationalError msg))
  /\ (forall fileno s st n,
         gen_next gen = Yield (fileno, s) st ->
         valid_events s = true ->
         wait_conn gen (Some 0%Q) (repeat [] n) = (Waiting, []))
  /\ (forall tr,
         wait_conn_async gen (Some 0%Q) tr = wait_conn_async gen None tr)
  /\ (forall tr msg,
         fst (wait_conn_async gen (Some 0%Q) tr)
         <> Raised (OperationalError msg))
  /\ (forall fileno s st n,
         gen_next gen = Yield (fileno, s) st ->
         futures s <> [] ->
         wait_conn_async gen (Some 0%Q) (repeat 0 n) = (Waiting, [])).
Proof.
  repeat split.
  - intros tr msg. unfold wait_conn. cbn [or_None Qeq_bool].
    change (or_None (Some 0%Q)) with (@None Q).
    destruct (gen_next gen) as [[fileno s] st|rv|e]; try discriminate.
    apply conn_loop_None_no_timeout.
  - intros fileno s st n Hn Hv. unfold wait_conn. rewrite Hn.
    change (or_None (Some 0%Q)) with (@None Q).
    now apply conn_loop_None_waits.
  - intros tr msg. unfold wait_conn_async.
    change (or_None (Some 0%Q)) with (@None Q).
    destruct (gen_next gen) as [[fileno s] st|rv|e]; try discriminate.
    apply conn_async_loop_None_no_timeout.
  - intros fileno s st n Hn Hf. unfold wait_conn_async. rewrite Hn.
    change (or_None (Some 0%Q)) with (@None Q).
    now apply conn_async_loop_None_waits.
Qed.

Lemma zero_timeout_waits_witness :
  wait_conn conn_read_once (Some 0%Q) (repeat [] 3%nat) = (Waiting, []).
Proof.
  destruct (zero_timeout_waits nat unit unit conn_read_once)
    as (_ & _ & Hwait & _).
  apply (Hwait 5 Wait.R tt 3%nat); reflexivity.
Defined.

(** ** More on the cache *)

Lemma set_prepared_same pm : set_prepared pm (_prepared pm) = pm.
Proof. now destruct pm. Qed.

(** The five things a [maintain] call can do. *)
Lemma maintain_cases pm q results prep name :
  exists cmd d',
    maintain pm q results prep name = (cmd, set_prepared pm d')
    /\ ((cmd = None /\ d' = _prepared pm
         /\ (prepare_threshold pm = None
             \/ (OrderedDict.get (key q) (_prepared pm) = None
                 /\ eligible results = false)))
        \/ (prepare_threshold pm <> None
            /\ fst (should_discard pm prep results) <> None
            /\ cmd = Some "DEALLOCATE ALL" /\ d' = [])
        \/ (exists v,
               prepare_threshold pm <> None
               /\ OrderedDict.get (key q) (_prepared pm) = Some v
               /\ cmd = None
               /\ d' = OrderedDict.remove (key q) (_prepared pm)
                       ++ [(key q, bump v prep name)])
        \/ (prepare_threshold pm <> None
            /\ OrderedDict.get (key q) (_prepared pm) = None
            /\ eligible results = true
            /\ cmd = None
            /\ d' = _prepared pm ++ [(key q, new_value prep name)]
            /\ OrderedDict.len d' <= prepared_max pm)
        \/ (exists ke ve,
               prepare_threshold pm <> None
               /\ OrderedDict.get (key q) (_prepared pm) = None
               /\ eligible results = true
               /\ _prepared pm ++ [(key q, new_value prep name)]
                  = (ke, ve) :: d'
               /\ prepared_max pm < OrderedDict.len ((ke, ve) :: d')
               /\ cmd = match ve with
                        | VBytes old_val =>
                            Some ("DEALLOCATE " ++ old_val)%string
                        | VInt _ => None
                        end)).
Proof.
  unfold maintain.
  destruct (prepare_threshold pm) as [T|] eqn:Ht.
  2:{ exists None, (_prepared pm). rewrite set_prepared_same.
      split; [reflexivity|]. left. repeat split. now left. }
  destruct (should_discard pm prep results) as [[cmd|] pm1] eqn:Hd.
  { apply should_discard_Some in Hd as [-> ->].
    exists (Some "DEALLOCATE ALL"), []. split; [reflexivity|].
    right. left. repeat split; discriminate. }
  apply should_discard_None in Hd as ->.
  unfold setdefault.
  destruct (OrderedDict.get (key q) (_prepared pm)) as [v|] eqn:Hg.
  - exists None,
      (OrderedDict.remove (key q) (_prepared pm)
       ++ [(key q, bump v prep name)]).
    split.
    + assert (Hrep : forall w,
                 OrderedDict.move_to_end (key q)
                   (OrderedDict.setitem (key q) w (_prepared pm))
                 = Some (OrderedDict.remove (key q) (_prepared pm)
                         ++ [(key q, w)])).
      { intros w. rewrite (OrderedDictFacts.setitem_present _ _ _ _ Hg).
        unfold OrderedDict.move_to_end.
        now rewrite (OrderedDictFacts.get_replace _ _ _ _ Hg), remove_replace. }
      destruct v as [n|b]; unfold bump.
      * destruct (Prepare_eqb prep SHOULD); now rewrite Hrep.
      * unfold OrderedDict.move_to_end. now rewrite Hg.
    + right. right. left. exists v. repeat split. discriminate.
  - fold (new_value prep name).
    assert (Hskip : eligible results = false ->
               exists cmd d',
                 (None (A:=bytes), pm) = (cmd, set_prepared pm d')
                 /\ (cmd = None /\ d' = _prepared pm
                     /\ (Some T = None
                         \/ (None (A:=Value) = None
                             /\ eligible results = false)))).
    { intros Hel. exists None, (_prepared pm).
      rewrite set_prepared_same. repeat split. right. now split. }
    destruct results as [|r [|r' rs]];
      try (destruct (Hskip eq_refl) as (cmd & d' & He & Hc);
           exists cmd, d'; split; [exact He | left; exact Hc]).
    destruct (negb (ExecStatus_eqb COMMAND_OK (status r))
              && negb (ExecStatus_eqb (status r) TUPLES_OK)) eqn:Hst.
    { assert (Hel : eligible [r] = false)
        by (simpl; destruct (status r); simpl in *; congruence).
      destruct (Hskip Hel) as (cmd & d' & He & Hc).
      exists cmd, d'. split; [exact He | left; exact Hc]. }
    assert (Hel : eligible [r] = true)
      by (simpl; destruct (status r); simpl in *; congruence).
    rewrite (OrderedDictFacts.setitem_absent _ _ _ Hg).
    destruct (_ <=? _)%Z eqn:Hle.
    + apply Z.leb_le in Hle.
      exists None, (_prepared pm ++ [(key q, new_value prep name)]).
      split; [reflexivity|]. right. right. right. left.
      repeat split; auto. discriminate.
    + apply Z.leb_gt in Hle.
      destruct (_prepared pm ++ [(key q, new_value prep name)])
        as [|[ke ve] d'] eqn:Hins.
      { now destruct (_prepared pm). }
      exists (match ve with
              | VBytes old_val => Some ("DEALLOCATE " ++ old_val)%string
              | VInt _ => None
              end), d'.
      split; [now destruct ve|].
      right. right. right. right. exists ke, ve.
      repeat split; auto. discriminate.
Qed.

Lemma lru_ordered_NoDup ks log : lru_ordered ks log -> NoDup ks.
Proof.
  intros [Hs _]. induction Hs as [|k ks Hs IH Hall]; constructor; [|exact IH].
  intros Hin. rewrite Forall_forall in Hall. apply Hall in Hin. lia.
Qed.

(** X1. From the empty cache, after any sequence of [get], [maintain] and
    [clear] calls no key is in the cache twice. *)
Theorem cache_keys_unique (threshold : option Z) (max : Z) (ops : list Op) :
  NoDup (OrderedDict.keys (_prepared (run (init threshold max) ops))).
Proof.
  apply (lru_ordered_NoDup _ (run_touches (init threshold max) ops [])).
  apply run_lru_ordered. apply lru_ordered_nil.
Qed.

Lemma get_In k v d : OrderedDict.get k d = Some v -> In (k, v) d.
Proof.
  induction d as [|[k' v'] d IH]; simpl; [discriminate|].
  destruct (Key_eqb k k') eqn:Hk.
  - apply Key_eqb_eq in Hk. intros [= ->]. left. congruence.
  - auto.
Qed.

Lemma In_remove_incl k d x : In x (OrderedDict.remove k d) -> In x d.
Proof.
  induction d as [|[k' v'] d IH]; simpl; [tauto|].
  destruct (Key_eqb k k'); simpl; tauto.
Qed.

Lemma In_remove_or k v d x :
  OrderedDict.get k d = Some v -> In x d ->
  In x (OrderedDict.remove k d) \/ x = (k, v).
Proof.
  induction d as [|[k' v'] d IH]; simpl; [tauto|].
  destruct (Key_eqb k k') eqn:Hk.
  - apply Key_eqb_eq in Hk. subst k'. intros [= ->] [<-|Hin]; auto.
  - intros Hg [<-|Hin]; [left; now left|].
    destruct (IH Hg Hin); [left; now right | now right].
Qed.

Lemma get_app k d d2 :
  OrderedDict.get k (d ++ d2)
  = match OrderedDict.get k d with
    | Some v => Some v
    | None => OrderedDict.get k d2
    end.
Proof.
  induction d as [|[k' v'] d IH]; simpl; [reflexivity|].
  now destruct (Key_eqb k k').
Qed.

Lemma get_remove_other k k' d :
  k' <> k -> OrderedDict.get k' (OrderedDict.remove k d) = OrderedDict.get k' d.
Proof.
  intros Hne. induction d as [|[k0 v0] d IH]; simpl; [reflexivity|].
  destruct (Key_eqb k k0) eqn:Hk.
  - apply Key_eqb_eq in Hk. subst k0.
    apply Key_eqb_neq in Hne. now rewrite Hne.
  - simpl. now rewrite IH.
Qed.

Lemma get_remove_same k d :
  NoDup (OrderedDict.keys d) ->
  OrderedDict.get k (OrderedDict.remove k d) = None.
Proof.
  induction d as [|[k0 v0] d IH]; simpl; [reflexivity|].
  intros Hnd. inversion Hnd as [|? ? Hnotin Hnd']; subst.
  destruct (Key_eqb k k0) eqn:Hk.
  - apply Key_eqb_eq in Hk. subst k0.
    now apply OrderedDictFacts.get_None_keys.
  - simpl. rewrite Hk. auto.
Qed.

Lemma get_single_other k k' (v : Value) :
  k' <> k -> OrderedDict.get k' [(k, v)] = None.
Proof. intros H. simpl. apply Key_eqb_neq in H. now rewrite H. Qed.

(** X2. A prepared name that leaves the cache is deallocated: after any
    call, an entry that held a name is still in the cache, or the call
    answered [DEALLOCATE ALL], or it answered [DEALLOCATE] with that name. *)
Theorem dropped_names_are_deallocated (pm : PrepareManager) (op : Op)
  (k : Key) (n : bytes) :
  In (k, VBytes n) (_prepared pm) ->
  In (k, VBytes n) (_prepared (step pm op))
  \/ command pm op = Some "DEALLOCATE ALL"
  \/ command pm op = Some ("DEALLOCATE " ++ n)%string.
Proof.
  intros Hin.
  destruct op as [q prepare|q results prep name|]; cbn [step command].
  - left. now rewrite get_prepared.
  - destruct (maintain_cases pm q results prep name)
      as (cmd & d' & -> & [(-> & -> & _)|[(_ & _ & -> & ->)|
           [(v & _ & Hg & -> & ->)|[(_ & Hg & _ & -> & -> & _)|
            (ke & ve & _ & Hg & _ & Hins & _ & ->)]]]]); cbn [fst snd];
      unfold set_prepared; cbn [_prepared].
    + now left.
    + right. now left.
    + left. apply in_or_app.
      destruct (In_remove_or _ _ _ _ Hg Hin) as [H|H]; [now left|].
      right. injection H as <- <-. simpl. now left.
    + left. apply in_or_app. now left.
    + assert (Hin' : In (k, VBytes n) ((ke, ve) :: d'))
        by (rewrite <- Hins; apply in_or_app; now left).
      destruct Hin' as [[= -> ->]|Hin']; [right; now right | now left].
  - unfold clear. destruct (_ =? _)%N; cbn [fst snd _prepared].
    + now left.
    + right. now left.
Qed.

Lemma dropped_names_are_deallocated_witness :
  In (key query_F, VBytes "_pg3_0")
    (_prepared
       (step (mkPM (Some 3) 1 [(key query_F, VBytes "_pg3_0")] 1)
          (OpMaintain query_G select_ok NO "")))
  \/ command (mkPM (Some 3) 1 [(key query_F, VBytes "_pg3_0")] 1)
       (OpMaintain query_G select_ok NO "") = Some "DEALLOCATE ALL"
  \/ command (mkPM (Some 3) 1 [(key query_F, VBytes "_pg3_0")] 1)
       (OpMaintain query_G select_ok NO "") = Some "DEALLOCATE _pg3_0".
Proof.
  apply (dropped_names_are_deallocated
           (mkPM (Some 3) 1 [(key query_F, VBytes "_pg3_0")] 1)
           (OpMaintain query_G select_ok NO "") (key query_F) "_pg3_0").
  simpl. now left.
Defined.

Lemma keys_snoc_NoDup d k (v : Value) :
  NoDup (OrderedDict.keys d) -> OrderedDict.get k d = None ->
  NoDup (OrderedDict.keys (d ++ [(k, v)])).
Proof.
  intros Hnd Hg. rewrite keys_app. simpl.
  apply OrderedDictFacts.get_None_keys in Hg.
  induction (OrderedDict.keys d) as [|x l IH]; simpl.
  - repeat constructor. simpl. tauto.
  - inversion Hnd as [|? ? Hx Hl]; subst. constructor.
    + rewrite in_app_iff. simpl. intros [H|[H|[]]]; [tauto|].
      subst. apply Hg. now left.
    + apply IH; [exact Hl|]. intros H. apply Hg. now right.
Qed.

(** X3. With no key twice in the cache, a call changes what a cached key
    holds only forwards: afterwards the key is gone, or holds what it held,
    or it held a count and now holds that count plus one or a name. In
    particular a name is never replaced and never turns back into a
    count. *)
Theorem entry_evolution (pm : PrepareManager) (op : Op) (k : Key) (v : Value) :
  NoDup (OrderedDict.keys (_prepared pm)) ->
  OrderedDict.get k (_prepared pm) = Some v ->
  OrderedDict.get k (_prepared (step pm op)) = None
  \/ OrderedDict.get k (_prepared (step pm op)) = Some v
  \/ exists c,
       v = VInt c
       /\ (OrderedDict.get k (_prepared (step pm op)) = Some (VInt (c + 1))
           \/ exists name,
                OrderedDict.get k (_prepared (step pm op))
                = Some (VBytes name)).
Proof.
  intros Hnd Hk. destruct op as [q prepare|q results prep name|]; cbn [step].
  - right. left. now rewrite get_prepared.
  - destruct (maintain_cases pm q results prep name)
      as (cmd & d' & -> & [(-> & -> & _)|[(_ & _ & -> & ->)|
           [(v0 & _ & Hg & -> & ->)|[(_ & Hg & _ & -> & -> & _)|
            (ke & ve & _ & Hg & _ & Hins & _ & ->)]]]]); cbn [fst snd];
      unfold set_prepared; cbn [_prepared].
    + now (right; left).
    + now left.
    + rewrite get_app. destruct (Key_eq_dec k (key q)) as [->|Hne].
      * rewrite (get_remove_same _ _ Hnd). simpl. rewrite Key_eqb_refl.
        assert (v0 = v) by congruence. subst v0.
        destruct v as [c|b]; unfold bump.
        -- right. right. exists c. split; [reflexivity|].
           destruct (Prepare_eqb prep SHOULD); [right; eauto | now left].
        -- now (right; left).
      * rewrite (get_remove_other _ _ _ Hne), Hk. now (right; left).
    + rewrite get_app, Hk. now (right; left).
    + pose proof (keys_snoc_NoDup _ _ (new_value prep name) Hnd Hg) as Hnd'.
      assert (Hk' : OrderedDict.get k ((ke, ve) :: d') = Some v)
        by (rewrite <- Hins, get_app; now rewrite Hk).
      rewrite Hins in Hnd'. simpl in Hnd', Hk'.
      inversion Hnd' as [|? ? Hnotin _]; subst.
      destruct (Key_eqb k ke) eqn:Hke.
      * apply Key_eqb_eq in Hke. subst ke. left.
        now apply OrderedDictFacts.get_None_keys.
      * now (right; left).
  - unfold clear. destruct (_ =? _)%N; cbn [snd _prepared].
    + now (right; left).
    + now left.
Qed.

Lemma entry_evolution_witness :
  OrderedDict.get (key query_F)
    (_prepared
       (step (mkPM (Some 3) 5 [(key query_F, VInt 2)] 0)
          (OpMaintain query_F select_ok NO ""))) = None
  \/ OrderedDict.get (key query_F)
       (_prepared
          (step (mkPM (Some 3) 5 [(key query_F, VInt 2)] 0)
             (OpMaintain query_F select_ok NO ""))) = Some (VInt 2)
  \/ exists c,
       VInt 2 = VInt c
       /\ (OrderedDict.get (key query_F)
             (_prepared
                (step (mkPM (Some 3) 5 [(key query_F, VInt 2)] 0)
                   (OpMaintain query_F select_ok NO "")))
           = Some (VInt (c + 1))
           \/ exists name,
                OrderedDict.get (key query_F)
                  (_prepared
                     (step (mkPM (Some 3) 5 [(key query_F, VInt 2)] 0)
                        (OpMaintain query_F select_ok NO "")))
                = Some (VBytes name)).
Proof.
  apply (entry_evolution (mkPM (Some 3) 5 [(key query_F, VInt 2)] 0)
           (OpMaintain query_F select_ok NO "") (key query_F) (VInt 2)).
  - simpl. repeat constructor. simpl. tauto.
  - reflexivity.
Defined.

Lemma get_prepared_name pm q prepare T name :
  prepare_threshold pm = Some T ->
  prepare <> Some false ->
  OrderedDict.get (key q) (_prepared pm) = Some (VBytes name) ->
  get pm q prepare = ((YES, name), pm).
Proof.
  intros Ht Hp Hg. unfold get. rewrite Ht, Hg.
  destruct prepare as [[|]|]; congruence.
Qed.

(** X4. Recording a promotion makes the query prepared: when [maintain] is
    called with [Prepare.SHOULD] and a name, with preparing enabled, no key
    twice in the cache and no invalidating result, for a query held as a
    count, or one not in the cache whose results pass the gate and with
    room for one entry, the next [get] for the query (with [prepare] not
    [False]) answers [YES] with that name and changes nothing. *)
Theorem promoted_is_prepared (pm : PrepareManager) (q : PostgresQuery)
  (results : list PGresult) (name : bytes) (prepare : option bool) (T : Z) :
  prepare_threshold pm = Some T ->
  NoDup (OrderedDict.keys (_prepared pm)) ->
  (forall r, In r results -> ~ invalidating r) ->
  (exists c, OrderedDict.get (key q) (_prepared pm) = Some (VInt c))
  \/ (OrderedDict.get (key q) (_prepared pm) = None
      /\ eligible results = true /\ 1 <= prepared_max pm) ->
  prepare <> Some false ->
  get (snd (maintain pm q results SHOULD name)) q prepare
  = ((YES, name), snd (maintain pm q results SHOULD name)).
Proof.
  intros Ht Hnd Hplain Hcase Hp.
  apply (get_prepared_name _ _ _ T); [|exact Hp|].
  { now destruct (maintain_config pm q results SHOULD name) as (-> & _). }
  destruct (maintain_cases pm q results SHOULD name)
    as (cmd & d' & -> & [(_ & _ & [Hn|[Hg Hel]])|[(_ & Hd & _)|
         [(v & _ & Hg & -> & ->)|[(_ & Hg & _ & -> & -> & _)|
          (ke & ve & _ & Hg & _ & Hins & Hlen & ->)]]]]); cbn [fst snd];
    unfold set_prepared; cbn [_prepared].
  - congruence.
  - destruct Hcase as [[c Hc]|(_ & Hel' & _)]; congruence.
  - now rewrite (should_discard_plain _ _ _ Hplain) in Hd.
  - destruct Hcase as [[c Hc]|(Hg' & _)]; [|congruence].
    assert (v = VInt c) by congruence. subst v.
    rewrite get_app, (get_remove_same _ _ Hnd). simpl.
    now rewrite Key_eqb_refl.
  - rewrite get_app, Hg. simpl. now rewrite Key_eqb_refl.
  - destruct Hcase as [[c Hc]|(_ & _ & Hmax)]; [congruence|].
    unfold OrderedDict.len in Hlen. rewrite <- Hins, length_app in Hlen.
    simpl in Hlen.
    destruct (_prepared pm) as [|kv d]; simpl in Hlen; [lia|].
    simpl in Hins. injection Hins as _ <-.
    apply get_tail_None in Hg. rewrite get_app, Hg. simpl.
    now rewrite Key_eqb_refl.
Qed.

Lemma promoted_is_prepared_witness :
  get (snd (maintain (mkPM (Some 3) 1 [(key query_F, VInt 3)] 1) query_F
              select_ok SHOULD "_pg3_0")) query_F None
  = ((YES, "_pg3_0"),
     snd (maintain (mkPM (Some 3) 1 [(key query_F, VInt 3)] 1) query_F
            select_ok SHOULD "_pg3_0")).
Proof.
  apply (promoted_is_prepared (mkPM (Some 3) 1 [(key query_F, VInt 3)] 1)
           query_F select_ok "_pg3_0" None 3).
  - reflexivity.
  - simpl. repeat constructor. simpl. tauto.
  - intros r [<-|[]] [Hs _]. discriminate.
  - left. exists 3. reflexivity.
  - discriminate.
Defined.

(** X5. A [maintain] call empties the cache, or leaves its size as it is,
    or adds one entry and stays within [prepared_max]; a cache that is over
    the maximum is not trimmed by it. *)
Theorem maintain_size_change (pm : PrepareManager) (q : PostgresQuery)
  (results : list PGresult) (prep : Prepare) (name : bytes) :
  let n := OrderedDict.len (_prepared pm) in
  let n' :=
    OrderedDict.len (_prepared (snd (maintain pm q results prep name))) in
  n' = 0 \/ n' = n \/ (n' = n + 1 /\ n' <= prepared_max pm).
Proof.
  cbv zeta.
  destruct (maintain_cases pm q results prep name)
    as (cmd & d' & -> & [(-> & -> & _)|[(_ & _ & -> & ->)|
         [(v & _ & Hg & -> & ->)|[(_ & Hg & _ & -> & -> & Hle)|
          (ke & ve & _ & Hg & _ & Hins & _ & ->)]]]]); cbn [fst snd];
    unfold set_prepared; cbn [_prepared].
  - right. now left.
  - now left.
  - right. left. unfold OrderedDict.len. rewrite length_app. simpl.
    apply OrderedDictFacts.remove_length in Hg. lia.
  - right. right. split; [|exact Hle].
    unfold OrderedDict.len. rewrite length_app. simpl. lia.
  - right. left. apply (f_equal (@List.length _)) in Hins.
    rewrite length_app in Hins. simpl in Hins.
    unfold OrderedDict.len. lia.
Qed.

(** X6. A query that is not in the cache is not entered when its results do
    not pass the gate (no result, several results, or a status other than
    [COMMAND_OK] and [TUPLES_OK]): the call changes nothing and answers
    nothing, unless it invalidates the whole cache. *)
Theorem ineligible_is_not_cached (pm : PrepareManager) (q : PostgresQuery)
  (results : list PGresult) (prep : Prepare) (name : bytes) :
  OrderedDict.get (key q) (_prepared pm) = None ->
  eligible results = false ->
  maintain pm q results prep name = (None, pm)
  \/ maintain pm q results prep name
     = (Some "DEALLOCATE ALL", set_prepared pm []).
Proof.
  intros Hg Hel.
  destruct (maintain_cases pm q results prep name)
    as (cmd & d' & -> & [(-> & -> & _)|[(_ & _ & -> & ->)|
         [(v & _ & Hg' & _)|[(_ & _ & Hel' & _)|
          (ke & ve & _ & _ & Hel' & _)]]]]); try congruence.
  - left. now rewrite set_prepared_same.
  - now right.
Qed.

Lemma ineligible_is_not_cached_witness :
  maintain (init (Some 5) 100) query_F [] NO "" = (None, init (Some 5) 100)
  \/ maintain (init (Some 5) 100) query_F [] NO ""
     = (Some "DEALLOCATE ALL", set_prepared (init (Some 5) 100) []).
Proof.
  apply (ineligible_is_not_cached (init (Some 5) 100) query_F [] NO "");
    reflexivity.
Defined.

Lemma Prepare_eqb_SHOULD prep : Prepare_eqb prep SHOULD = true -> prep = SHOULD.
Proof. now destruct prep. Qed.

Lemma bump_name v prep name n :
  bump v prep name = VBytes n ->
  v = VBytes n \/ (prep = SHOULD /\ name = n).
Proof.
  destruct v as [c|b]; simpl.
  - destruct (Prepare_eqb prep SHOULD) eqn:Hp; [|discriminate].
    intros [= ->]. right. split; [now apply Prepare_eqb_SHOULD | reflexivity].
  - intros [= ->]. now left.
Qed.

Lemma new_value_name prep name n :
  new_value prep name = VBytes n -> prep = SHOULD /\ name = n.
Proof.
  unfold new_value. destruct (Prepare_eqb prep SHOULD) eqn:Hp; [|discriminate].
  intros [= ->]. split; [now apply Prepare_eqb_SHOULD | reflexivity].
Qed.

Lemma step_name_origin pm op k n :
  In (k, VBytes n) (_prepared (step pm op)) ->
  In (k, VBytes n) (_prepared pm)
  \/ exists q results, op = OpMaintain q results SHOULD n /\ key q = k.
Proof.
  destruct op as [q prepare|q results prep name|]; cbn [step].
  - rewrite get_prepared. now left.
  - destruct (maintain_cases pm q results prep name)
      as (cmd & d' & -> & [(-> & -> & _)|[(_ & _ & -> & ->)|
           [(v & _ & Hg & -> & ->)|[(_ & Hg & _ & -> & -> & _)|
            (ke & ve & _ & Hg & _ & Hins & _ & ->)]]]]); cbn [fst snd];
      unfold set_prepared; cbn [_prepared]; intros Hin.
    + now left.
    + destruct Hin.
    + apply in_app_or in Hin as [Hin|[[= <- Hb]|[]]].
      * left. now apply In_remove_incl in Hin.
      * apply bump_name in Hb as [->|[-> ->]].
        -- left. now apply get_In.
        -- right. now exists q, results.
    + apply in_app_or in Hin as [Hin|[[= <- Hb]|[]]]; [now left|].
      apply new_value_name in Hb as [-> ->]. right. now exists q, results.
    + assert (Hin' : In (k, VBytes n)
                       (_prepared pm ++ [(key q, new_value prep name)]))
        by (rewrite Hins; now right).
      apply in_app_or in Hin' as [Hin'|[[= <- Hb]|[]]]; [now left|].
      apply new_value_name in Hb as [-> ->]. right. now exists q, results.
  - unfold clear. destruct (_ =? _)%N; cbn [snd _prepared]; intros Hin.
    + now left.
    + destruct Hin.
Qed.

Lemma run_name_origin ops : forall pm k n,
  In (k, VBytes n) (_prepared (run pm ops)) ->
  In (k, VBytes n) (_prepared pm)
  \/ exists q results, In (OpMaintain q results SHOULD n) ops /\ key q = k.
Proof.
  induction ops as [|op ops IH]; intros pm k n Hin; [now left|].
  simpl in Hin. apply IH in Hin as [Hin|(q & results & Hin & Hk)].
  - apply step_name_origin in Hin as [Hin|(q & results & -> & Hk)];
      [now left|].
    right. exists q, results. split; [now left | exact Hk].
  - right. exists q, results. split; [now right | exact Hk].
Qed.

Lemma get_YES pm q prepare name :
  fst (get pm q prepare) = (YES, name) ->
  OrderedDict.get (key q) (_prepared pm) = Some (VBytes name).
Proof.
  unfold get.
  destruct prepare as [[|]|], (prepare_threshold pm); simpl;
    try discriminate;
    destruct (OrderedDict.get _ _) as [[n|b]|]; simpl;
    try discriminate;
    try match goal with |- context [if ?c then _ else _] => destruct c end;
    simpl; try discriminate; congruence.
Qed.

(** X7. [get] answers [YES] with a name only for a query that an earlier
    [maintain] call recorded with [Prepare.SHOULD] and that name: starting
    from the empty cache, whenever [get] answers [(YES, name)] after a
    sequence of calls, the sequence has a [maintain] call with the same
    key, [Prepare.SHOULD] and [name]. *)
Theorem prepared_name_was_recorded (threshold : option Z) (max : Z)
  (ops : list Op) (q : PostgresQuery) (prepare : option bool) (name : bytes) :
  fst (get (run (init threshold max) ops) q prepare) = (YES, name) ->
  exists q' results,
    In (OpMaintain q' results SHOULD name) ops /\ key q' = key q.
Proof.
  intros Hyes. apply get_YES, get_In in Hyes.
  apply run_name_origin in Hyes as [[]|H]. exact H.
Qed.

Lemma prepared_name_was_recorded_witness :
  exists q' results,
    In (OpMaintain q' results SHOULD "_pg3_0")
      [OpGet query_F (Some true);
       OpMaintain query_F select_ok SHOULD "_pg3_0"]
    /\ key q' = key query_F.
Proof.
  apply (prepared_name_was_recorded (Some 5) 100
           [OpGet query_F (Some true);
            OpMaintain query_F select_ok SHOULD "_pg3_0"] query_F None).
  reflexivity.
Defined.

Lemma get_disabled pm q prepare :
  prepare_threshold pm = None -> get pm q prepare = ((NO, ""), pm).
Proof. intros Ht. unfold get. rewrite Ht. now destruct prepare as [[|]|]. Qed.

Lemma maintain_disabled pm q results prep name :
  prepare_threshold pm = None -> maintain pm q results prep name = (None, pm).
Proof. intros Ht. unfold maintain. now rewrite Ht. Qed.

(** X8. With [prepare_threshold] set to [None] the manager is inert: over
    any sequence of [get] and [maintain] calls every [get] answers [NO],
    no name is handed out, no command is answered, and the manager, cache
    included, stays as it was. *)
Theorem disabled_manager_is_inert (pm : PrepareManager) (ops : list Op) :
  prepare_threshold pm = None ->
  Forall (fun op => op <> OpClear) ops ->
  run pm ops = pm
  /\ names_issued pm ops = []
  /\ Forall (fun op => command pm op = None) ops
  /\ forall q prepare, fst (get (run pm ops) q prepare) = (NO, "").
Proof.
  intros Ht Hall.
  assert (Hstep : forall op, In op ops ->
                             step pm op = pm /\ command pm op = None
                             /\ names_issued pm [op] = []).
  { intros op Hin. rewrite Forall_forall in Hall. apply Hall in Hin.
    destruct op as [q prepare|q results prep name|]; [| |congruence];
      cbn [step command names_issued].
    - now rewrite (get_disabled _ _ _ Ht).
    - now rewrite (maintain_disabled _ _ _ _ _ Ht). }
  clear Hall.
  induction ops as [|op ops IH].
  - repeat split; [constructor|]. intros q prepare.
    simpl. now rewrite (get_disabled _ _ _ Ht).
  - destruct (Hstep op (or_introl eq_refl)) as (Hs & Hc & Hn).
    destruct IH as (Hrun & Hnames & Hcmd & Hget).
    { intros op' Hin. apply Hstep. now right. }
    cbn [run fold_left names_issued]. fold (run (step pm op) ops).
    rewrite Hs. repeat split; auto.
    cbn [names_issued] in Hn. rewrite app_nil_r in Hn. now rewrite Hn, Hnames.
Qed.

Lemma disabled_manager_is_inert_witness :
  run (mkPM None 100 [] 0)
    [OpGet query_F (Some true); OpMaintain query_F select_ok NO ""]
  = mkPM None 100 [] 0.
Proof.
  apply (disabled_manager_is_inert (mkPM None 100 [] 0)
           [OpGet query_F (Some true); OpMaintain query_F select_ok NO ""]).
  - reflexivity.
  - repeat constructor; discriminate.
Defined.

Lemma step_config pm op :
  prepare_threshold (step pm op) = prepare_threshold pm
  /\ prepared_max (step pm op) = prepared_max pm.
Proof.
  split; [|apply step_prepared_max].
  destruct op as [q prepare|q results prep name|]; simpl.
  - unfold get.
    destruct (prepare_threshold pm) eqn:Ht; destruct prepare as [[|]|];
      simpl; try assumption;
      destruct (OrderedDict.get _ _) as [[n|b]|]; simpl; try assumption;
      match goal with |- context [if ?c then _ else _] => destruct c end;
      simpl; assumption.
  - apply maintain_config.
  - unfold clear. destruct (_ =? _)%N; reflexivity.
Qed.

Lemma run_config ops : forall pm,
  prepare_threshold (run pm ops) = prepare_threshold pm
  /\ prepared_max (run pm ops) = prepared_max pm.
Proof.
  induction ops as [|op ops IH]; intros pm; [now split|].
  simpl. destruct (IH (step pm op)) as [-> ->]. apply step_config.
Qed.

(** X9. [clear] tells whether a name was handed out: after a sequence of
    [get] and [maintain] calls from a fresh manager, [clear] answers nothing
    and changes nothing when no [get] of the sequence answered [SHOULD]
    (counts stay in the cache); otherwise it answers [DEALLOCATE ALL] and
    the manager is the fresh one again. *)
Theorem clear_after_names (threshold : option Z) (max : Z) (ops : list Op) :
  Forall (fun op => op <> OpClear) ops ->
  (names_issued (init threshold max) ops = [] ->
   clear (run (init threshold max) ops) = (None, run (init threshold max) ops))
  /\ (names_issued (init threshold max) ops <> [] ->
      clear (run (init threshold max) ops)
      = (Some "DEALLOCATE ALL", init threshold max)).
Proof.
  intros Hall.
  destruct (names_issued_seq ops (init threshold max) Hall) as (k & Hn & Hi).
  destruct (run_config ops (init threshold max)) as [Ht Hm].
  cbn [init _prepared_idx prepare_threshold prepared_max] in Hi, Ht, Hm.
  rewrite Hn. unfold clear. rewrite Hi, Ht, Hm.
  destruct k as [|k].
  - split; [reflexivity|]. intros H. now contradiction H.
  - split; [discriminate|]. intros _.
    replace (0 + N.of_nat (S k) =? 0)%N with false; [reflexivity|].
    symmetry. apply N.eqb_neq. lia.
Qed.

Lemma clear_after_names_witness :
  clear (run (init (Some 5) 100) [OpMaintain query_F select_ok NO ""])
  = (None, run (init (Some 5) 100) [OpMaintain query_F select_ok NO ""]).
Proof.
  apply (clear_after_names (Some 5) 100 [OpMaintain query_F select_ok NO ""]).
  - repeat constructor; discriminate.
  - reflexivity.
Defined.

(** ** More on the wait functions *)





Section WaitingRuns.

Variables RV E St : Type.






Lemma selector_loop_any_timeout (gen : PQGen RV E St) timeout tr :
  forall st s sent,
    selector_loop gen timeout st s tr sent
    = selector_loop gen None st s tr sent.
Proof.
  induction tr as [|w tr IH]; intros st s sent.
  - now rewrite !selector_loop_nil.
  - destruct w as [|[fd ready] rl].
    + rewrite !selector_loop_empty. apply IH.
    + rewrite !selector_loop_ready.
      destruct (negb (valid_events s)); [reflexivity|].
      destruct (negb (truthy (Z.land s ready))); [reflexivity|].
      destruct (gen_send gen st ready); [apply IH | reflexivity | reflexivity].
Qed.

Lemma selector_loop_no_timeout_error (gen : PQGen RV E St) timeout tr :
  forall st s sent msg,
    fst (selector_loop gen timeout st s tr sent)
    <> Raised (OperationalError msg).
Proof.
  induction tr as [|w tr IH]; intros st s sent msg.
  - rewrite selector_loop_nil. destruct (negb _); discriminate.
  - destruct w as [|[fd ready] rl].
    + rewrite selector_loop_empty. apply IH.
    + rewrite selector_loop_ready.
      destruct (negb (valid_events s)); [discriminate|].
      destruct (negb (truthy (Z.land s ready))); [discriminate|].
      destruct (gen_send gen st ready);
        [apply IH | discriminate | discriminate].
Qed.


Lemma selector_loop_invalid (gen : PQGen RV E St) timeout st s tr sent :
  valid_events s = false ->
  selector_loop gen timeout st s tr sent = (Raised ValueError, sent).
Proof.
  intros Hv. induction tr as [|w tr IH].
  - now rewrite selector_loop_nil, Hv.
  - destruct w as [|[fd ready] rl].
    + now rewrite selector_loop_empty.
    + now rewrite selector_loop_ready, Hv.
Qed.

Lemma conn_loop_invalid (gen : PQGenConn RV E St) timeout st fileno s tr sent :
  valid_events s = false ->
  conn_loop gen timeout st fileno s tr sent = (Raised ValueError, sent).
Proof.
  intros Hv. induction tr as [|w tr IH].
  - now rewrite conn_loop_nil, Hv.
  - destruct w as [|[fd ready] rl].
    + destruct timeout.
      * now rewrite conn_loop_empty_Some, Hv.
      * now rewrite conn_loop_empty_None.
    + now rewrite conn_loop_ready, Hv.
Qed.

Lemma async_loop_bad_status (gen : PQGen RV E St) st s tr sent :
  futures s = [] ->
  async_loop gen st s tr sent
  = (Raised (InternalError ("bad poll status: " ++ decimal_Z s)%string), sent).
Proof.
  intros Hf. destruct tr as [|ev tr].
  - now rewrite async_loop_nil, Hf.
  - now rewrite async_loop_cons, Hf.
Qed.

Lemma conn_async_loop_bad_status (gen : PQGenConn RV E St) timeout st fileno s
  tr sent :
  futures s = [] ->
  conn_async_loop gen timeout st fileno s tr sent
  = (Raised (InternalError ("bad poll status: " ++ decimal_Z s)%string), sent).
Proof.
  intros Hf. destruct tr as [|ev tr].
  - now rewrite conn_async_loop_nil, Hf.
  - now rewrite conn_async_loop_cons, Hf.
Qed.

End WaitingRuns.



(** X11. The timeout of [wait_selector] only sets how often it polls: the
    call does the same with any timeout as with none, and it never raises
    [OperationalError], so an empty poll is never a failure for it. *)
Theorem wait_selector_any_timeout (RV E St : Type) (gen : PQGen RV E St)
  (fileno : Z) (timeout : option Q) (tr : list Window) :
  wait_selector gen fileno timeout tr = wait_selector gen fileno None tr
  /\ forall msg,
       fst (wait_selector gen fileno timeout tr)
       <> Raised (OperationalError msg).
Proof.
  unfold wait_selector. destruct (gen_next gen) as [s st|rv|e].
  - split; [apply selector_loop_any_timeout|].
    intros msg. apply selector_loop_no_timeout_error.
  - split; [reflexivity | discriminate].
  - split; [reflexivity | discriminate].
Qed.



(** X15. A first request the wait primitive cannot take ends the call
    before any wait, without resuming the generator: [ValueError] from
    [register] in [wait_selector] and [wait_conn] when the request is empty
    or has a bit outside read and write, [KeyError] from [poll_evmasks] in
    [wait_epoll] when it is not a member of [Wait], and
    [InternalError("bad poll status: ...")] in [wait_async] and
    [wait_conn_async] when it has neither the read nor the write bit. *)
Theorem invalid_first_request (RV E St : Type) (gen : PQGen RV E St)
  (cgen : PQGenConn RV E St) (st : St) (s fd : Z) :
  gen_next gen = Yield s st ->
  gen_next cgen = Yield (fd, s) st ->
  (valid_events s = false ->
   (forall fileno timeout tr,
       wait_selector gen fileno timeout tr = (Raised ValueError, []))
   /\ (forall timeout tr, wait_conn cgen timeout tr = (Raised ValueError, [])))
  /\ (poll_evmasks s = None ->
      forall fileno timeout tr,
        wait_epoll gen fileno timeout tr = (Raised KeyError, []))
  /\ (futures s = [] ->
      (forall fileno tr,
          wait_async gen fileno tr
          = (Raised (InternalError ("bad poll status: " ++ decimal_Z s)%string),
             []))
      /\ (forall timeout tr,
             wait_conn_async cgen timeout tr
             = (Raised
                  (InternalError ("bad poll status: " ++ decimal_Z s)%string),
                []))).
Proof.
  intros Hn Hcn. split; [|split].
  - intros Hv. split.
    + intros fileno timeout tr. unfold wait_selector. rewrite Hn.
      now apply selector_loop_invalid.
    + intros timeout tr. unfold wait_conn. rewrite Hcn.
      now apply conn_loop_invalid.
  - intros Hm fileno timeout tr. unfold wait_epoll. now rewrite Hn, Hm.
  - intros Hf. split.
    + intros fileno tr. unfold wait_async. rewrite Hn.
      now apply async_loop_bad_status.
    + intros timeout tr. unfold wait_conn_async. rewrite Hcn.
      now apply conn_async_loop_bad_status.
Qed.

Lemma invalid_first_request_witness :
  wait_async (mkGen (Yield 4 tt) (fun _ _ => Return 7%nat)
              : PQGen nat unit unit) 5 [1; 2]
  = (Raised (InternalError "bad poll status: 4"), []).
Proof.
  destruct (invalid_first_request nat unit unit
              (mkGen (Yield 4 tt) (fun _ _ => Return 7%nat))
              (mkGen (Yield (5, 4) tt) (fun _ _ => Return 7%nat)) tt 4 5
              eq_refl eq_refl) as (_ & _ & Hasync).
  destruct (Hasync eq_refl) as [H _]. apply (H 5 [1; 2]).
Defined.

Lemma low_bits s :
  exists r,
    (r = 0 \/ r = 1 \/ r = 2 \/ r = 3)
    /\ Z.land s 1 = Z.land r 1 /\ Z.land s 2 = Z.land r 2
    /\ Z.land s 3 = r.
Proof.
  exists (Z.land s 3). split; [|split; [|split]].
  - change 3 with (Z.ones 2). rewrite Z.land_ones by lia.
    change (2 ^ 2) with 4.
    change (Z.ones 2) with 3.
    pose proof (Z.mod_pos_bound s 4 ltac:(lia)). lia.
  - now rewrite <- Z.land_assoc.
  - now rewrite <- Z.land_assoc.
  - reflexivity.
Qed.

Lemma land_within s m :
  (m = 1 /\ Z.land s 1 <> 0)
  \/ (m = 2 /\ Z.land s 2 <> 0)
  \/ (m = 3 /\ Z.land s 1 <> 0 /\ Z.land s 2 <> 0) ->
  Z.land m s = m.
Proof.
  destruct (low_bits s) as (r & Hr & H1 & H2 & H3).
  intros [[-> Ha] | [[-> Hb] | (-> & Ha & Hb)]];
    rewrite Z.land_comm; rewrite ?H1, ?H2, ?H3 in *;
    destruct Hr as [-> | [-> | [-> | ->]]]; simpl in *; congruence.
Qed.

Lemma done_within_request s ev d done :
  filter (fun f => truthy (Z.land f ev)) (futures s) = d :: done ->
  within_request (s, merge_done (d :: done)).
Proof.
  unfold futures, Wait.R, Wait.W, Ready.R, Ready.W, EVENT_READ, EVENT_WRITE,
    within_request, merge_done.
  destruct (truthy (Z.land s 1)) eqn:H1;
    destruct (truthy (Z.land s 2)) eqn:H2; cbn [app filter];
    destruct (truthy (Z.land 1 ev)); destruct (truthy (Z.land 2 ev));
    intros H; inversion H; subst; clear H; cbn [fold_left fst snd];
    change (Z.lor (Z.lor 0 1) 2) with 3;
    change (Z.lor 0 1) with 1; change (Z.lor 0 2) with 2;
    try apply truthy_true in H1; try apply truthy_true in H2;
    apply land_within; auto.
Qed.

Section WaitingWithin.

Variables RV E St : Type.

Lemma Forall_snoc_within sent s ready :
  Forall within_request sent -> within_request (s, ready) ->
  Forall within_request (sent ++ [(s, ready)]).
Proof.
  intros H Hs. apply Forall_app. split; [exact H|]. now repeat constructor.
Qed.

Lemma async_loop_within (gen : PQGen RV E St) tr :
  forall st s sent,
    Forall within_request sent ->
    Forall within_request (snd (async_loop gen st s tr sent)).
Proof.
  induction tr as [|ev tr IH]; intros st s sent Hsent.
  - rewrite async_loop_nil. now destruct (futures s).
  - rewrite async_loop_cons.
    destruct (futures s) as [|f fs] eqn:Hf; [exact Hsent|].
    destruct (filter _ (f :: fs)) as [|d done] eqn:Hdone; [now apply IH|].
    rewrite <- Hf in Hdone.
    pose proof (done_within_request s ev d done Hdone) as Hb.
    pose proof (Forall_snoc_within sent s _ Hsent Hb) as Hsent'.
    cbv zeta.
    destruct (gen_send gen st (merge_done (d :: done))) as [s' st'|rv|e];
      auto.
Qed.

Lemma conn_async_loop_within (gen : PQGenConn RV E St) timeout tr :
  forall st fileno s sent,
    Forall within_request sent ->
    Forall within_request
      (snd (conn_async_loop gen timeout st fileno s tr sent)).
Proof.
  induction tr as [|ev tr IH]; intros st fileno s sent Hsent.
  - rewrite conn_async_loop_nil. now destruct (futures s).
  - rewrite conn_async_loop_cons.
    destruct (futures s) as [|f fs] eqn:Hf; [exact Hsent|].
    destruct (filter _ (f :: fs)) as [|d done] eqn:Hdone.
    + destruct timeout; [exact Hsent | now apply IH].
    + rewrite <- Hf in Hdone.
      pose proof (done_within_request s ev d done Hdone) as Hb.
      pose proof (Forall_snoc_within sent s _ Hsent Hb) as Hsent'.
      cbv zeta.
      destruct (gen_send gen st (merge_done (d :: done)))
        as [[fileno' s'] st'|rv|e]; auto.
Qed.

End WaitingWithin.

(** X13. [wait_async] and [wait_conn_async] never report a readiness that
    was not asked for: every value they send to the generator has its bits
    among those of the request it answers. *)
Theorem async_ready_within_request (RV E St : Type) :
  (forall (gen : PQGen RV E St) fileno tr,
      Forall within_request (snd (wait_async gen fileno tr)))
  /\ (forall (gen : PQGenConn RV E St) timeout tr,
         Forall within_request (snd (wait_conn_async gen timeout tr))).
Proof.
  split.
  - intros gen fileno tr. unfold wait_async.
    destruct (gen_next gen) as [s st|rv|e]; try constructor.
    apply async_loop_within. constructor.
  - intros gen timeout tr. unfold wait_conn_async.
    destruct (gen_next gen) as [[fileno s] st|rv|e]; try constructor.
    apply conn_async_loop_within. constructor.
Qed.

Lemma epoll_ready_cases ev :
  (Z.land ev (Z.lnot EPOLLOUT) = 0 /\ Z.land ev (Z.lnot EPOLLIN) = 0
   /\ epoll_ready ev = 0)
  \/ (Z.land ev (Z.lnot EPOLLOUT) <> 0 /\ Z.land ev (Z.lnot EPOLLIN) = 0
      /\ epoll_ready ev = Ready.R)
  \/ (Z.land ev (Z.lnot EPOLLOUT) = 0 /\ Z.land ev (Z.lnot EPOLLIN) <> 0
      /\ epoll_ready ev = Ready.W)
  \/ (Z.land ev (Z.lnot EPOLLOUT) <> 0 /\ Z.land ev (Z.lnot EPOLLIN) <> 0
      /\ epoll_ready ev = Ready.RW).
Proof.
  unfold epoll_ready.
  destruct (truthy (Z.land ev (Z.lnot EPOLLOUT))) eqn:Ha;
    destruct (truthy (Z.land ev (Z.lnot EPOLLIN))) eqn:Hb;
    try apply truthy_true in Ha; try apply truthy_true in Hb;
    try (apply Bool.not_true_iff_false in Ha;
         rewrite truthy_true in Ha; apply Decidable.not_not in Ha;
         [|unfold Decidable.decidable; lia]);
    try (apply Bool.not_true_iff_false in Hb;
         rewrite truthy_true in Hb; apply Decidable.not_not in Hb;
         [|unfold Decidable.decidable; lia]);
    auto 10.
Qed.

(** X14. How [wait_epoll] reads an epoll event mask: the readiness is empty
    only for the empty mask; an event with a flag other than [EPOLLIN] and
    [EPOLLOUT] (an error or a hang-up) is read as ready for both, so it
    answers any request of [Wait] and never trips the assertion; [EPOLLIN]
    alone is read as [Ready.R] and [EPOLLOUT] alone as [Ready.W]. *)
Theorem epoll_ready_reading (ev : Z) :
  (epoll_ready ev = 0 <-> ev = 0)
  /\ (Z.land ev (Z.lnot (Z.lor EPOLLIN EPOLLOUT)) <> 0 ->
      epoll_ready ev = Ready.RW
      /\ forall s, is_Wait s -> Z.land s (epoll_ready ev) <> 0)
  /\ epoll_ready EPOLLIN = Ready.R
  /\ epoll_ready EPOLLOUT = Ready.W.
Proof.
  split; [|split; [|split; reflexivity]].
  - split.
    + intros H0.
      destruct (epoll_ready_cases ev)
        as [(Ha & Hb & _)|[(_ & _ & H)|[(_ & _ & H)|(_ & _ & H)]]];
        try (rewrite H in H0; discriminate).
      assert (Hev : Z.land ev (Z.lor (Z.lnot EPOLLOUT) (Z.lnot EPOLLIN)) = ev)
        by apply Z.land_m1_r.
      rewrite <- Hev. now rewrite Z.land_lor_distr_r, Ha, Hb.
    + intros ->. reflexivity.
  - intros Hx.
    assert (Hab : Z.land ev (Z.lnot EPOLLOUT) <> 0
                  /\ Z.land ev (Z.lnot EPOLLIN) <> 0).
    { change (Z.lnot (Z.lor EPOLLIN EPOLLOUT))
        with (Z.land (Z.lnot EPOLLOUT) (Z.lnot EPOLLIN)) in Hx.
      split; intros H0; apply Hx.
      - now rewrite Z.land_assoc, H0.
      - now rewrite (Z.land_comm (Z.lnot EPOLLOUT)), Z.land_assoc, H0. }
    destruct (epoll_ready_cases ev)
      as [(Ha & _)|[(_ & Hb & _)|[(Ha & _)|(_ & _ & H)]]];
      try tauto.
    split; [exact H|]. intros s Hs. rewrite H.
    destruct Hs as [-> | [-> | ->]]; discriminate.
Qed.

Lemma epoll_ready_reading_witness :
  epoll_ready 16 = Ready.RW.
Proof.
  destruct (epoll_ready_reading 16) as (_ & H & _).
  apply H. discriminate.
Defined.

(** X16. Names are handed out in order: in a sequence of [get] and
    [maintain] calls on a fresh manager, without [clear], the names
    answered with [SHOULD] are [_pg3_0], [_pg3_1], ... in this order, and the
    counter is the number of names handed out. *)
Theorem names_in_order (threshold : option Z) (max : Z) (ops : list Op) :
  Forall (fun op => op <> OpClear) ops ->
  let names := names_issued (init threshold max) ops in
  names = map (fun i => pg3_name (N.of_nat i)) (seq 0 (List.length names))
  /\ _prepared_idx (run (init threshold max) ops)
     = N.of_nat (List.length names).
Proof.
  intros Hall names.
  destruct (names_issued_seq ops (init threshold max) Hall) as (k & Hn & Hi).
  cbn [init _prepared_idx] in Hn, Hi. unfold names.
  rewrite Hn, Hi, length_map, length_seq. split; [|lia].
  apply map_ext. intros i. f_equal.
Qed.

Lemma names_in_order_witness :
  names_issued (init (Some 5) 100)
    [OpGet query_F (Some true); OpGet query_G (Some true)]
  = map (fun i => pg3_name (N.of_nat i))
      (seq 0
         (List.length
            (names_issued (init (Some 5) 100)
               [OpGet query_F (Some true); OpGet query_G (Some true)]))).
Proof.
  apply (names_in_order (Some 5) 100
           [OpGet query_F (Some true); OpGet query_G (Some true)]).
  repeat constructor; discriminate.
Defined.

Section WaitingCount.

Variables RV E St : Type.

Lemma selector_loop_count (gen : PQGen RV E St) timeout tr :
  forall st s sent,
    (List.length (snd (selector_loop gen timeout st s tr sent))
     <= List.length sent + List.length tr)%nat.
Proof.
  induction tr as [|w tr IH]; intros st s sent.
  - rewrite selector_loop_nil. destruct (negb _); simpl; lia.
  - destruct w as [|[fd ready] rl].
    + rewrite selector_loop_empty. specialize (IH st s sent). simpl. lia.
    + rewrite selector_loop_ready.
      destruct (negb (valid_events s)); [simpl; lia|].
      destruct (negb (truthy (Z.land s ready))); [simpl; lia|].
      destruct (gen_send gen st ready) as [s' st'|rv|e].
      * specialize (IH st' s' (sent ++ [(s, ready)])).
        rewrite length_app in IH. simpl in *. lia.
      * simpl. rewrite length_app. simpl. lia.
      * simpl. rewrite length_app. simpl. lia.
Qed.

Lemma epoll_loop_count (gen : PQGen RV E St) timeout tr :
  forall st s sent,
    (List.length (snd (epoll_loop gen timeout st s tr sent))
     <= List.length sent + List.length tr)%nat.
Proof.
  induction tr as [|w tr IH]; intros st s sent; [simpl; lia|].
  destruct w as [|[fd ev] rl]; cbn [epoll_loop epoll_poll].
  - specialize (IH st s sent). simpl. lia.
  - destruct (negb (truthy (Z.land s (epoll_ready ev)))); [simpl; lia|].
    destruct (gen_send gen st (epoll_ready ev)) as [s' st'|rv|e].
    + destruct (poll_evmasks s').
      * specialize (IH st' s' (sent ++ [(s, epoll_ready ev)])).
        rewrite length_app in IH. simpl in *. lia.
      * simpl. rewrite length_app. simpl. lia.
    + simpl. rewrite length_app. simpl. lia.
    + simpl. rewrite length_app. simpl. lia.
Qed.

Lemma conn_loop_count (gen : PQGenConn RV E St) timeout tr :
  forall st fileno s sent,
    (List.length (snd (conn_loop gen timeout st fileno s tr sent))
     <= List.length sent + List.length tr)%nat.
Proof.
  induction tr as [|w tr IH]; intros st fileno s sent.
  - rewrite conn_loop_nil. destruct (negb _); simpl; lia.
  - destruct w as [|[fd ready] rl].
    + destruct timeout.
      * rewrite conn_loop_empty_Some. destruct (negb _); simpl; lia.
      * rewrite conn_loop_empty_None. specialize (IH st fileno s sent).
        simpl. lia.
    + rewrite conn_loop_ready.
      destruct (negb (valid_events s)); [simpl; lia|].
      destruct (gen_send gen st ready) as [[fileno' s'] st'|rv|e].
      * specialize (IH st' fileno' s' (sent ++ [(s, ready)])).
        rewrite length_app in IH. simpl in *. lia.
      * simpl. rewrite length_app. simpl. lia.
      * simpl. rewrite length_app. simpl. lia.
Qed.

Lemma async_loop_count (gen : PQGen RV E St) tr :
  forall st s sent,
    (List.length (snd (async_loop gen st s tr sent))
     <= List.length sent + List.length tr)%nat.
Proof.
  induction tr as [|ev tr IH]; intros st s sent.
  - rewrite async_loop_nil. destruct (futures s); simpl; lia.
  - rewrite async_loop_cons.
    destruct (futures s) as [|f fs]; [simpl; lia|].
    destruct (filter _ (f :: fs)) as [|d done].
    + specialize (IH st s sent). simpl. lia.
    + cbv zeta.
      destruct (gen_send gen st (merge_done (d :: done))) as [s' st'|rv|e].
      * specialize (IH st' s' (sent ++ [(s, merge_done (d :: done))])).
        rewrite length_app in IH. simpl in *. lia.
      * simpl. rewrite length_app. simpl. lia.
      * simpl. rewrite length_app. simpl. lia.
Qed.

Lemma conn_async_loop_count (gen : PQGenConn RV E St) timeout tr :
  forall st fileno s sent,
    (List.length (snd (conn_async_loop gen timeout st fileno s tr sent))
     <= List.length sent + List.length tr)%nat.
Proof.
  induction tr as [|ev tr IH]; intros st fileno s sent.
  - rewrite conn_async_loop_nil. destruct (futures s); simpl; lia.
  - rewrite conn_async_loop_cons.
    destruct (futures s) as [|f fs]; [simpl; lia|].
    destruct (filter _ (f :: fs)) as [|d done].
    + destruct timeout; [simpl; lia|].
      specialize (IH st fileno s sent). simpl. lia.
    + cbv zeta.
      destruct (gen_send gen st (merge_done (d :: done)))
        as [[fileno' s'] st'|rv|e].
      * specialize (IH st' fileno' s' (sent ++ [(s, merge_done (d :: done))])).
        rewrite length_app in IH. simpl in *. lia.
      * simpl. rewrite length_app. simpl. lia.
      * simpl. rewrite length_app. simpl. lia.
Qed.

End WaitingCount.

(** X17. A wait function resumes the generator only on what it observes:
    each value sent answers a window of its own, so none of the five sends
    more values than there are windows in the trace. *)
Theorem resumed_once_per_window (RV E St : Type) :
  (forall (gen : PQGen RV E St) fileno timeout tr,
      (List.length (snd (wait_selector gen fileno timeout tr))
       <= List.length tr)%nat)
  /\ (forall (gen : PQGen RV E St) fileno timeout tr,
         (List.length (snd (wait_epoll gen fileno timeout tr))
          <= List.length tr)%nat)
  /\ (forall (gen : PQGenConn RV E St) timeout tr,
         (List.length (snd (wait_conn gen timeout tr)) <= List.length tr)%nat)
  /\ (forall (gen : PQGen RV E St) fileno tr,
         (List.length (snd (wait_async gen fileno tr)) <= List.length tr)%nat)
  /\ (forall (gen : PQGenConn RV E St) timeout tr,
         (List.length (snd (wait_conn_async gen timeout tr))
          <= List.length tr)%nat).
Proof.
  split; [|split; [|split; [|split]]].
  - intros gen fileno timeout tr. unfold wait_selector.
    destruct (gen_next gen) as [s st|rv|e]; try (simpl; lia).
    apply (selector_loop_count _ _ _ gen timeout tr st s []).
  - intros gen fileno timeout tr. unfold wait_epoll.
    destruct (gen_next gen) as [s st|rv|e]; try (simpl; lia).
    destruct (poll_evmasks s); [|simpl; lia].
    apply (epoll_loop_count _ _ _ gen (epoll_timeout timeout) tr st s []).
  - intros gen timeout tr. unfold wait_conn.
    destruct (gen_next gen) as [[fileno s] st|rv|e]; try (simpl; lia).
    apply (conn_loop_count _ _ _ gen (or_None timeout) tr st fileno s []).
  - intros gen fileno tr. unfold wait_async.
    destruct (gen_next gen) as [s st|rv|e]; try (simpl; lia).
    apply (async_loop_count _ _ _ gen tr st s []).
  - intros gen timeout tr. unfold wait_conn_async.
    destruct (gen_next gen) as [[fileno s] st|rv|e]; try (simpl; lia).
    apply (conn_async_loop_count _ _ _ gen (or_None timeout) tr st fileno s []).
Qed.
